(** * DownloadPdfs.py: the Joplin city-council document scraper

    A shallow embedding of [src/DownloadPdfs.py] and the properties its
    specification states about it.

    Python's [str] is a sequence of Unicode code points, and the program's
    behaviour depends on that (the regular expressions are compiled for
    [str] patterns, so [\d], [\s] and [re.IGNORECASE] are Unicode aware).
    Text is therefore modelled as a list of code points. *)

From Stdlib Require Import String Ascii.
From stdpp Require Import gmap list pretty.

Local Open Scope N_scope.

(** ** Text *)

Module Py.

Definition str := list N.

(** An ASCII literal as a [str]. *)
Definition cp (s : string) : str :=
  (fun a => N_of_ascii a) <$> list_ascii_of_string s.

(** [s.startswith(p)] *)
Fixpoint startswith (s p : str) {struct p} : bool :=
  match p with
  | [] => true
  | a :: p' =>
      match s with
      | [] => false
      | b :: s' => (a =? b) && startswith s' p'
      end
  end.

(** [s.endswith(p)] *)
Definition endswith (s p : str) : bool :=
  startswith (reverse s) (reverse p).

(** [sub in s] *)
Fixpoint contains (s sub : str) : bool :=
  startswith s sub ||
  match s with
  | [] => false
  | _ :: s' => contains s' sub
  end.

(** [s.split(sep)[0]] for a one-character separator: the text before the
    first [sep], or all of [s] when there is none. *)
Fixpoint split_head (sep : N) (s : str) : str :=
  match s with
  | [] => []
  | c :: s' => if c =? sep then [] else c :: split_head sep s'
  end.

(** [s.rfind(c)] for a one-character [c]: [None] stands for -1. *)
Fixpoint rfind (c : N) (s : str) : option nat :=
  match s with
  | [] => None
  | x :: s' =>
      match rfind c s' with
      | Some i => Some (S i)
      | None => if x =? c then Some 0%nat else None
      end
  end.

(** [s.zfill(width)]: zeros on the left, after a leading sign if any. *)
Definition zfill (width : nat) (s : str) : str :=
  let zeros := replicate (width - length s) 48 in
  match s with
  | c :: rest => if (c =? 43) || (c =? 45) then c :: zeros ++ rest else zeros ++ s
  | [] => zeros
  end.

(** [str(n)] / [f"{n}"] for a non-negative integer. *)
Definition str_of_int (n : N) : str := cp (pretty n).

Definition is_ascii_upper (c : N) : bool := (65 <=? c) && (c <=? 90).
Definition is_ascii_lower (c : N) : bool := (97 <=? c) && (c <=? 122).

(** The parts of the interpreter the program depends on and that are not
    reproduced here: the tables of its Unicode database, and its limit on
    the length of a number in text.  Every general theorem below holds for
    any such tables and limit. *)
Class UnicodeData := {
  (** [str.lower()] *)
  str_lower : str -> str;
  (** the class [\d] of a [str] pattern (category Nd) *)
  is_decimal : N -> bool;
  (** the value [int()] gives a decimal digit *)
  decimal_value : N -> N;
  (** the class [\s] of a [str] pattern *)
  is_space : N -> bool;
  (** [sys.get_int_max_str_digits()], the longest run of digits [int()]
      converts (4300 by default from Python 3.11 on); [None] when there is
      no limit *)
  int_max_str_digits : option nat
}.

(** The number a run of decimal digits denotes. *)
Definition int_of_digits {U : UnicodeData} (s : str) : N :=
  foldl (fun acc c => acc * 10 + decimal_value c) 0 s.

(** *** Case folding under [re.IGNORECASE]

    For a [str] pattern, a cased literal [a] is compiled to a test of the
    lower-cased subject character against the lower case of [a] and its
    "ignore-case fixes".  For an ASCII letter the characters accepted are
    its two ASCII cases and, as the [re] documentation lists, U+0130 and
    U+0131 for [i], U+017F for [s] and U+212A for [k]. *)
Definition ascii_fold (c : N) : N :=
  if is_ascii_upper c then c + 32 else c.

Definition ignorecase_eq (a x : N) : bool :=
  let lo := ascii_fold a in
  if is_ascii_lower lo then
    (ascii_fold x =? lo)
    || ((lo =? 105) && ((x =? 304) || (x =? 305)))
    || ((lo =? 115) && (x =? 383))
    || ((lo =? 107) && (x =? 8490))
  else x =? a.

(** *** [str.capitalize()]

    The first character is title-cased and the rest lower-cased.  The
    program applies it to group 1 of a date match only, whose code points
    are ASCII letters, U+0130, U+0131 or U+017F (lemma
    [month_group_alphabet] below); on these the two mappings are as
    follows, U+0130 lower-casing to the two code points U+0069 U+0307.
    Other code points are passed through. *)
Definition title_char (c : N) : str :=
  if is_ascii_lower c then [c - 32]
  else if c =? 305 then [73]
  else if c =? 383 then [83]
  else [c].

Definition lower_char (c : N) : str :=
  if is_ascii_upper c then [c + 32]
  else if c =? 304 then [105; 775]
  else [c].

Definition capitalize (s : str) : str :=
  match s with
  | [] => []
  | c :: rest => title_char c ++ concat (lower_char <$> rest)
  end.

End Py.

Import Py.

(** ** Regular expressions

    The fragment of [re] the program uses, run by a backtracking matcher
    that tries alternatives from left to right and repetitions greedily,
    as [re] does. *)

Module Re.

Inductive regex :=
  | Eps
  | Lit (a : N)                      (** an uncased or case-sensitive literal *)
  | LitI (a : N)                     (** a literal under [re.IGNORECASE] *)
  | Rep (p : N -> bool) (lo : nat) (hi : option nat)
                                     (** [c{lo,hi}] for a character class, greedy *)
  | Opt (r : regex)                  (** [r?] *)
  | Seq (r1 r2 : regex)
  | Alt (r1 r2 : regex)
  | Group (i : nat) (r : regex).     (** capturing group number [i] *)

Definition captures := gmap nat str.

(** [m.group(i)] of a match in which group [i] took part. *)
Definition group (c : captures) (i : nat) : str := default [] (c !! i).

Definition more_allowed (hi : option nat) : bool :=
  match hi with Some O => false | _ => true end.

Section Matcher.
Context {T : Type}.

Fixpoint rep (p : N -> bool) (lo : nat) (hi : option nat) (s : str)
    (k : str -> option T) : option T :=
  let stop := match lo with O => k s | S _ => None end in
  match s with
  | x :: s' =>
      if p x && more_allowed hi then
        match rep p (pred lo) (pred <$> hi) s' k with
        | Some t => Some t
        | None => stop
        end
      else stop
  | [] => stop
  end.

Fixpoint exec (r : regex) (s : str) (c : captures)
    (k : str -> captures -> option T) : option T :=
  match r with
  | Eps => k s c
  | Lit a =>
      match s with
      | x :: s' => if x =? a then k s' c else None
      | [] => None
      end
  | LitI a =>
      match s with
      | x :: s' => if ignorecase_eq a x then k s' c else None
      | [] => None
      end
  | Rep p lo hi => rep p lo hi s (fun s' => k s' c)
  | Opt r1 =>
      match exec r1 s c k with
      | Some t => Some t
      | None => k s c
      end
  | Seq r1 r2 => exec r1 s c (fun s1 c1 => exec r2 s1 c1 k)
  | Alt r1 r2 =>
      match exec r1 s c k with
      | Some t => Some t
      | None => exec r2 s c k
      end
  | Group i r1 =>
      exec r1 s c
        (fun s1 c1 => k s1 (<[i := take (length s - length s1) s]> c1))
  end.
End Matcher.

(** [pattern.match(s)]: a match anchored at the start of [s]. *)
Definition match_here (r : regex) (s : str) : option captures :=
  exec r s ∅ (fun _ c => Some c).

(** [pattern.search(s)]: the leftmost match. *)
Fixpoint search (r : regex) (s : str) : option captures :=
  match match_here r s with
  | Some c => Some c
  | None =>
      match s with
      | [] => None
      | _ :: s' => search r s'
      end
  end.

(** A literal string, case-sensitive and under [re.IGNORECASE]. *)
Definition lits (w : str) : regex := foldr (fun a r => Seq (Lit a) r) Eps w.
Definition litsI (w : str) : regex := foldr (fun a r => Seq (LitI a) r) Eps w.

(** [w1|w2|...|wn] under [re.IGNORECASE], for a non-empty list of words. *)
Fixpoint altsI (ws : list str) : regex :=
  match ws with
  | [] => Eps
  | [w] => litsI w
  | w :: ws' => Alt (litsI w) (altsI ws')
  end.

End Re.

Import Re.

(** ** The program: pure components *)

(** Exceptions the program can meet. *)
Inductive exn :=
  | RequestException     (** raised by [requests]: network error, timeout, bad status *)
  | KeyError             (** a dictionary lookup with a missing key *)
  | ValueError           (** [int()] on a run of digits over the interpreter's limit *)
  | OSError.             (** a refusal of the file system *)

Inductive result (A : Type) :=
  | Ok (a : A)
  | Raise (e : exn).
Arguments Ok {A} a.
Arguments Raise {A} e.

(** Whether [int()] accepts a run of this length. *)
Definition within_int_limit {U : UnicodeData} (s : str) : bool :=
  match int_max_str_digits with
  | Some limit => bool_decide (length s ≤ limit)%nat
  | None => true
  end.

(** [int(s)] on a run of decimal digits. *)
Definition py_int {U : UnicodeData} (s : str) : result N :=
  if within_int_limit s then Ok (int_of_digits s) else Raise ValueError.

(** What the program reads off a parsed page.  [BeautifulSoup(html,
    "html.parser")] itself is an external library and is a parameter. *)
Record Soup := {
  (** [a["href"]] for [a] in [soup.find_all("a", href=True)], in document order *)
  anchors : list str;
  (** [tag.get_text(strip=True)] for [tag] in
      [soup.find_all(["h1", "h2", "h3", "div", "span"])], in document order *)
  block_texts : list str;
  (** [soup.title], and inside it [soup.title.string], each of which may be [None] *)
  title : option (option str)
}.

Class HtmlParser := { BeautifulSoup : str -> Soup }.

Definition BASE_URL : str := cp "https://www.joplinmo.org".

(** [LIST_URL_TMPL.format(year=year)] *)
Definition list_url (year : N) : str :=
  BASE_URL ++ cp "/AgendaCenter/City-Council-26?MOBILE=ON&year=" ++ str_of_int year.

Definition absolute_url (href : str) : str :=
  if startswith href (cp "http") then href
  else BASE_URL ++ (if startswith href (cp "/") then href else cp "/" ++ href).

(** The two "preserve order, drop duplicates" loops of the program
    (lines 54-60 and 172-178) are the same loop at two element types. *)
Section Dedup.
Context `{Countable A}.

Definition dedup_step (st : gset A * list A) (i : A) : gset A * list A :=
  let '(seen, uniq) := st in
  if decide (i ∈ seen) then st else ({[i]} ∪ seen, uniq ++ [i]).

Definition dedup (l : list A) : list A := (foldl dedup_step (∅, []) l).2.
End Dedup.

Section Program.
Context {U : UnicodeData} {P : HtmlParser}.

(** *** extract_meeting_ids *)

(** [r"/AgendaCenter/26/(\d+)"] *)
Definition meeting_id_pattern : regex :=
  Seq (lits (cp "/AgendaCenter/26/")) (Group 1 (Rep is_decimal 1 None)).

(** The first loop, from the anchors still to visit and the [ids]
    collected so far: every match, in anchor order, unless [int()] raises. *)
Fixpoint collect_ids_from (ids : list N) (hrefs : list str) : result (list N) :=
  match hrefs with
  | [] => Ok ids
  | href :: rest =>
      match search meeting_id_pattern href with
      | Some m =>
          match py_int (group m 1) with
          | Ok n => collect_ids_from (ids ++ [n]) rest
          | Raise e => Raise e
          end
      | None => collect_ids_from ids rest
      end
  end.

Definition collect_ids (hrefs : list str) : result (list N) :=
  collect_ids_from [] hrefs.

Definition extract_meeting_ids (list_html : str) : result (list N) :=
  match collect_ids (anchors (BeautifulSoup list_html)) with
  | Ok ids => Ok (dedup ids)
  | Raise e => Raise e
  end.

(** *** parse_meeting_date *)

Definition possible_texts (soup : Soup) : list str :=
  filter (fun txt => txt ≠ []) (block_texts soup)
  ++ match title soup with
     | Some s => [default [] s]
     | None => []
     end.

Definition month_list : list str :=
  cp <$> ["January"; "February"; "March"; "April"; "May"; "June"; "July";
          "August"; "September"; "October"; "November"; "December"]%string.

(** [(January|February|...|December)], compiled below with [re.IGNORECASE] *)
Definition month_regex : regex := Group 1 (altsI month_list).

(** [rf"{month_regex}\s+(\d{{1,2}}),?\s+(\d{{4}})"] with [re.IGNORECASE] *)
Definition date_pattern : regex :=
  Seq month_regex
    (Seq (Rep is_space 1 None)
       (Seq (Group 2 (Rep is_decimal 1 (Some 2%nat)))
          (Seq (Opt (Lit 44))
             (Seq (Rep is_space 1 None)
                (Group 3 (Rep is_decimal 4 (Some 4%nat))))))).

(** The dictionary literal of lines 97-110. *)
Definition month_num : gmap str str :=
  list_to_map
    (prod_map cp cp <$>
       [("January", "01"); ("February", "02"); ("March", "03");
        ("April", "04"); ("May", "05"); ("June", "06"); ("July", "07");
        ("August", "08"); ("September", "09"); ("October", "10");
        ("November", "11"); ("December", "12")]%string).

(** The body of the [if m:] branch. *)
Definition date_of_match (m : captures) : result str :=
  match month_num !! capitalize (group m 1) with
  | Some month => Ok (month ++ zfill 2 (group m 2) ++ group m 3)
  | None => Raise KeyError
  end.

(** The loop over [possible_texts]; falling off its end returns [""]. *)
Fixpoint first_date (txts : list str) : result str :=
  match txts with
  | [] => Ok []
  | txt :: rest =>
      match search date_pattern txt with
      | Some m => date_of_match m
      | None => first_date rest
      end
  end.

Definition parse_meeting_date (page_html : str) : result str :=
  first_date (possible_texts (BeautifulSoup page_html)).

(** *** extract_file_links *)

Definition EXTENSIONS : list str :=
  cp <$> [".pdf"; ".zip"; ".doc"; ".docx"; ".xls"; ".xlsx"; ".ppt"; ".pptx"]%string.

(** [s.endswith(EXTENSIONS)] for a tuple of suffixes *)
Definition endswith_any (s : str) (sufs : list str) : bool :=
  existsb (endswith s) sufs.

(** Lines 137-144, on [url.lower()]. *)
Definition direct_type (lurl : str) : str :=
  if contains lurl (cp "/agenda/") || contains lurl (cp "/viewfile/agenda/")
  then cp "agenda"
  else if contains lurl (cp "/minutes/") || contains lurl (cp "/viewfile/minutes/")
  then cp "minutes"
  else if contains lurl (cp "/packet/") || contains lurl (cp "/viewfile/packet/")
  then cp "packet"
  else cp "other".

(** Lines 151-165: what the ViewFile branch appends for [url], if anything. *)
Definition viewfile_entry (url : str) : option (str * str) :=
  let clean_path := str_lower (split_head 63 url) in
  if contains clean_path (cp "/viewfile/agenda/") then
    Some (url, if contains (str_lower url) (cp "packet=true")
               then cp "packet" else cp "agenda")
  else if contains clean_path (cp "/viewfile/minutes/") then
    Some (url, cp "minutes")
  else if contains clean_path (cp "/viewfile/packet/") then
    Some (url, cp "packet")
  else None.

(** One iteration of the loop over the anchors, with the ViewFile branch
    as an argument. *)
Definition link_entry_with (viewfile : str -> option (str * str))
    (href : str) : option (str * str) :=
  let url := absolute_url href in
  if endswith_any (str_lower url) EXTENSIONS
  then Some (url, direct_type (str_lower url))
  else viewfile url.

Definition link_entry : str -> option (str * str) :=
  link_entry_with viewfile_entry.

Definition collect_files (hrefs : list str) : list (str * str) :=
  foldl (fun files href =>
           match link_entry href with
           | Some entry => files ++ [entry]
           | None => files
           end) [] hrefs.

Definition extract_file_links (page_html : str) : list (str * str) :=
  dedup (collect_files (anchors (BeautifulSoup page_html))).
End Program.

(** *** build_filename *)

(** [s.split(sep)] for a one-character separator. *)
Fixpoint split (sep : N) (s : str) : list str :=
  match s with
  | [] => [[]]
  | c :: s' =>
      if c =? sep then [] :: split sep s'
      else match split sep s' with
           | h :: t => (c :: h) :: t
           | [] => [[c]]
           end
  end.

(** [Path(p).name] for a POSIX path: the last of the components between
    slashes, empty and ["."] components dropped; [""] when there is none. *)
Definition path_name (p : str) : str :=
  default [] (last (filter (fun x => x ≠ [] ∧ x ≠ cp ".") (split 47 p))).

(** [Path(p).suffix] (Python up to 3.13): from the last dot of the name on,
    unless that dot is the first or the last character of the name. *)
Definition path_suffix (p : str) : str :=
  let name := path_name p in
  match rfind 46 name with
  | Some i =>
      if bool_decide (0 < i < length name - 1)%nat then drop i name else []
  | None => []
  end.

Definition build_filename (date_str ftype url : str) : str :=
  let ext := path_suffix url in
  let ext := if bool_decide (ext = []) then cp ".pdf" else ext in
  date_str ++ cp "_" ++ ftype ++ ext.

(** ** The program: effects

    The world the program acts on is the local file system and the log of
    what it did to the outside: HTTP requests, pauses and console lines.
    Directories are not modelled: a path exists when a file is stored
    under it.  The destination of a download lies in the year's directory,
    which [scrape_year] has made before, so that the [mkdir] of line 183
    has nothing left to do. *)

Inductive message :=
  | Scraping (year : N)
  | NoMeetings (year : N)
  | MeetingFailed (meeting_id : N)
  | Saved (dst : str)
  | DownloadFailed (url : str).

Inductive event :=
  | Get (url : str)                (** [requests.get(url, timeout=15)] *)
  | Stream (url dst : str)         (** [requests.get(url, stream=True, timeout=30)] *)
  | Sleep                          (** [time.sleep(0.5)] *)
  | Print (m : message).

Record World := {
  files : gmap str (list Byte.byte);
  trace : list event               (** oldest first *)
}.

(** How a streamed download ends. *)
Inductive stream_outcome :=
  | Refused                             (** the request or [raise_for_status] raises; [dst] is not opened *)
  | Broken (written : list Byte.byte)   (** [iter_content] raises after [written] reached [dst] *)
  | Complete (body : list Byte.byte).

(** The remote site: what a request gets, which may depend on when it is
    made (the number of events so far). *)
Class Network := {
  http_get : nat -> str -> option str;      (** [None]: the request raises *)
  http_stream : nat -> str -> stream_outcome
}.

Definition M (A : Type) : Type := World -> result A * World.

Definition ret {A} (a : A) : M A := fun w => (Ok a, w).

Definition bind {A B} (m : M A) (f : A -> M B) : M B := fun w =>
  match m w with
  | (Ok a, w') => f a w'
  | (Raise e, w') => (Raise e, w')
  end.

Notation "x <- m ;; k" := (bind m (fun x => k))
  (at level 100, m at next level, right associativity).
Notation "m ;; k" := (bind m (fun _ => k))
  (at level 100, right associativity).

(** A pure computation that may raise. *)
Definition lift {A} (r : result A) : M A := fun w => (r, w).

(** [try: m  except Exception as exc: h] *)
Definition try_except {A} (m : M A) (h : exn -> M A) : M A := fun w =>
  match m w with
  | (Ok a, w') => (Ok a, w')
  | (Raise e, w') => h e w'
  end.

(** [for x in l: body(x)] *)
Fixpoint for_each {A} (l : list A) (body : A -> M unit) : M unit :=
  match l with
  | [] => ret tt
  | x :: l' => body x ;; for_each l' body
  end.

Definition emit (e : event) : M unit := fun w =>
  (Ok tt, {| files := files w; trace := trace w ++ [e] |}).

Definition print (m : message) : M unit := emit (Print m).

(** [dst.exists()], taken to answer: a refusal of the file system to look
    the path up is not modelled. *)
Definition path_exists (p : str) : M bool := fun w =>
  (Ok (bool_decide (is_Some (files w !! p))), w).

(** [year_dir.mkdir(parents=True, exist_ok=True)] for [year_dir] directly
    under [out_root]: it raises when a regular file stands where one of the
    two directories should be.  Other refusals of the file system are not
    modelled. *)
Definition mkdir_year (out_root year_dir : str) : M unit := fun w =>
  if bool_decide (is_Some (files w !! out_root) ∨ is_Some (files w !! year_dir))
  then (Raise OSError, w)
  else (Ok tt, w).

(** [a / b] for a relative [b] without slashes. *)
Definition joinpath (a b : str) : str := a ++ cp "/" ++ b.

Section Effects.
Context {U : UnicodeData} {P : HtmlParser} {Net : Network}.

Definition fetch (url : str) : M str := fun w =>
  let w' := {| files := files w; trace := trace w ++ [Get url] |} in
  match http_get (length (trace w)) url with
  | Some text => (Ok text, w')
  | None => (Raise RequestException, w')
  end.

Definition download (url dst : str) : M unit := fun w =>
  let tr := trace w ++ [Stream url dst] in
  match http_stream (length (trace w)) url with
  | Refused => (Raise RequestException, {| files := files w; trace := tr |})
  | Broken b =>
      (Raise RequestException, {| files := <[dst := b]> (files w); trace := tr |})
  | Complete b => (Ok tt, {| files := <[dst := b]> (files w); trace := tr |})
  end.

(** The name under which the files of a meeting are stored (lines 232-234). *)
Definition meeting_date_str (meeting_id : N) (meeting_html : str) : M str :=
  date_str <- lift (parse_meeting_date meeting_html) ;;
  ret (if bool_decide (date_str = []) then cp "id" ++ str_of_int meeting_id
       else date_str).

(** The body of the loop over [file_links] (lines 241-253). *)
Definition process_file (year_dir date_str : str) (link : str * str) : M unit :=
  let '(file_url, ftype) := link in
  let filename := build_filename date_str ftype file_url in
  let dst := joinpath year_dir filename in
  present <- path_exists dst ;;
  if present then ret tt
  else
    try_except
      (download file_url dst ;; emit Sleep ;; print (Saved dst))
      (fun _ => print (DownloadFailed file_url)).

Definition meeting_url (year meeting_id : N) : str :=
  BASE_URL ++ cp "/AgendaCenter/26/" ++ str_of_int meeting_id
  ++ cp "?MOBILE=ON&year=" ++ str_of_int year.

(** The body of the loop over [meeting_ids] (lines 222-253). *)
Definition process_meeting (year : N) (year_dir : str) (meeting_id : N) : M unit :=
  page <- try_except
            (html <- fetch (meeting_url year meeting_id) ;; ret (Some html))
            (fun _ => print (MeetingFailed meeting_id) ;; ret None) ;;
  match page with
  | None => ret tt
  | Some meeting_html =>
      date_str <- meeting_date_str meeting_id meeting_html ;;
      for_each (extract_file_links meeting_html) (process_file year_dir date_str)
  end.

Definition scrape_year (year : N) (out_root : str) : M unit :=
  print (Scraping year) ;;
  list_html <- fetch (list_url year) ;;
  meeting_ids <- lift (extract_meeting_ids list_html) ;;
  match meeting_ids with
  | [] => print (NoMeetings year)
  | _ :: _ =>
      let year_dir := joinpath out_root (str_of_int year) in
      mkdir_year out_root year_dir ;;
      for_each meeting_ids (process_meeting year year_dir)
  end.

(** [range(2022, 2026)] *)
Definition YEARS : list N := [2022; 2023; 2024; 2025].

Definition OUT_ROOT : str := cp "joplin_council_pdfs".

Definition main : M unit :=
  for_each YEARS (fun yr => scrape_year yr OUT_ROOT).
End Effects.

(** ** Test fixtures *)

(** The tables on Basic Latin, with the default limit of [int()].  On
    ASCII text the interpreter's tables agree with them; the examples below
    use them on such text (and on U+017F, which is neither a digit nor
    white space). *)
Definition basic_latin : UnicodeData := {|
  str_lower := fmap ascii_fold;
  is_decimal c := (48 <=? c) && (c <=? 57);
  decimal_value c := c - 48;
  is_space c := ((9 <=? c) && (c <=? 13)) || ((28 <=? c) && (c <=? 32));
  int_max_str_digits := Some 4300%nat
|}.

(** A parser that answers with a given parse. *)
Definition canned (soup : Soup) : HtmlParser := {| BeautifulSoup := fun _ => soup |}.

(** A site that is down: every request raises. *)
Definition site_down : Network := {|
  http_get := fun _ _ => None;
  http_stream := fun _ _ => Refused
|}.

(** A site that serves the 2022 listing and nothing else. *)
Definition only_2022_listing : Network := {|
  http_get := fun _ url => if bool_decide (url = list_url 2022) then Some [] else None;
  http_stream := fun _ _ => Refused
|}.

Definition empty_world : World := {| files := ∅; trace := [] |}.

(** The world after a year 2022 without meetings. *)
Definition after_empty_2022 : World :=
  {| files := ∅;
     trace := [Print (Scraping 2022); Get (list_url 2022); Print (NoMeetings 2022)] |}.

(** ** Specification vocabulary *)

(** The position at which [x] is first seen in [l]. *)
Fixpoint first_index `{EqDecision A} (x : A) (l : list A) : option nat :=
  match l with
  | [] => None
  | y :: l' => if decide (x = y) then Some 0%nat else S <$> first_index x l'
  end.

(** [r] lists the distinct values of [l] in the order in which [l] first
    shows them. *)
Definition first_seen_order `{EqDecision A} (l r : list A) : Prop :=
  NoDup r
  ∧ (∀ x, x ∈ r ↔ x ∈ l)
  ∧ (∀ i j x y, r !! i = Some x → r !! j = Some y → (i < j)%nat →
       ∃ p q, first_index x l = Some p ∧ first_index y l = Some q ∧ (p < q)%nat).

(** The values of [l] not in [seen], each at its first occurrence. *)
Fixpoint keep_first `{EqDecision A} (seen l : list A) : list A :=
  match l with
  | [] => []
  | x :: l' =>
      if decide (x ∈ seen) then keep_first seen l'
      else x :: keep_first (x :: seen) l'
  end.

(** The type of a direct file link as the specification words it: the
    first of the segments /agenda/, /minutes/, /packet/ found in the
    lower-cased URL, "other" when there is none. *)
Definition segment_type (lurl : str) : str :=
  if contains lurl (cp "/agenda/") then cp "agenda"
  else if contains lurl (cp "/minutes/") then cp "minutes"
  else if contains lurl (cp "/packet/") then cp "packet"
  else cp "other".

(** The meeting id an anchor gives, if its target matches the pattern. *)
Definition href_meeting_id {U : UnicodeData} (href : str) : option N :=
  (fun m => int_of_digits (group m 1)) <$> search meeting_id_pattern href.

Definition two_links_to_501 : list str :=
  [cp "/AgendaCenter/26/501"; cp "/AgendaCenter/26/501"].

Definition packet_minutes_pdf : str := cp "/AgendaCenter/ViewFile/Packet/Minutes/501.pdf".

(** The text after the first [?] of a URL. *)
Definition query_string (url : str) : str :=
  drop (S (length (split_head 63 url))) url.

Definition agenda_with_flag : str :=
  cp "/AgendaCenter/ViewFile/Agenda/_05012023-501?packet=true".
Definition agenda_without_flag : str :=
  cp "/AgendaCenter/ViewFile/Agenda/_05012023-501".
Definition agenda_flag_in_path : str :=
  cp "/AgendaCenter/ViewFile/Agenda/_packet=true".

Definition no_soup : Soup := {| anchors := []; block_texts := []; title := None |}.

(** [w'] is reached from [w] without touching a file of [w]: the files of
    [w] are still there with their content, the trace has grown, and every
    download added to it goes to a path that holds no file in [w]. *)
Definition keeps_files (w w' : World) : Prop :=
  files w ⊆ files w'
  ∧ ∃ tr, trace w' = trace w ++ tr
          ∧ ∀ url dst, Stream url dst ∈ tr → files w !! dst = None.

Definition file_safe {A} (m : M A) : Prop := ∀ w, keeps_files w (m w).2.

Definition one_saved_file : World :=
  {| files := {[ cp "joplin_council_pdfs/2023/05012023_agenda.pdf" := [] ]};
     trace := [] |}.

(** The world after [scrape_year] met a failing listing fetch. *)
Definition after_failed_listing (year : N) (w : World) : World :=
  {| files := files w;
     trace := trace w ++ [Print (Scraping year); Get (list_url year)] |}.

(** [matches r g c c']: [r] matches exactly the text [g], taking the
    captures from [c] to [c']. *)
Inductive matches : regex → str → captures → captures → Prop :=
  | matches_eps c : matches Eps [] c c
  | matches_lit a c : matches (Lit a) [a] c c
  | matches_litI a x c : ignorecase_eq a x = true → matches (LitI a) [x] c c
  | matches_rep p lo hi g c :
      Forall (fun x => p x = true) g → (lo ≤ length g)%nat →
      (∀ h, hi = Some h → (length g ≤ h)%nat) →
      matches (Rep p lo hi) g c c
  | matches_opt_some r g c c' : matches r g c c' → matches (Opt r) g c c'
  | matches_opt_none r c : matches (Opt r) [] c c
  | matches_seq r1 r2 g1 g2 c c1 c2 :
      matches r1 g1 c c1 → matches r2 g2 c1 c2 → matches (Seq r1 r2) (g1 ++ g2) c c2
  | matches_alt_l r1 r2 g c c' : matches r1 g c c' → matches (Alt r1 r2) g c c'
  | matches_alt_r r1 r2 g c c' : matches r2 g c c' → matches (Alt r1 r2) g c c'
  | matches_group i r g c c' :
      matches r g c c' → matches (Group i r) g c (<[i := g]> c').

(** [g] spells the word [w] up to the case folding of [re.IGNORECASE]. *)
Definition ci_word (w g : str) : Prop :=
  Forall2 (fun a x => ignorecase_eq a x = true) w g.

Definition is_ascii_letter (c : N) : bool := is_ascii_upper c || is_ascii_lower c.

(** The code points group 1 of a date match is made of. *)
Definition month_char (x : N) : bool :=
  is_ascii_letter x || (x =? 304) || (x =? 305) || (x =? 383).

(** An upper-case ASCII letter followed by lower-case ASCII letters. *)
Definition capitalized (w : str) : bool :=
  match w with
  | [] => false
  | a :: rest => is_ascii_upper a && forallb is_ascii_lower rest
  end.

(** ["01"], ..., ["12"] *)
Definition two_digits (n : nat) : str := zfill 2 (str_of_int (N.of_nat n)).

Ltac char_arith :=
  unfold month_char, is_ascii_letter, ignorecase_eq, title_char, lower_char,
    ascii_fold, is_ascii_upper, is_ascii_lower in *;
  repeat case_match;
  repeat match goal with
    | H : _ && _ = true |- _ => apply andb_true_iff in H as [??]
    | H : _ || _ = true |- _ => apply orb_true_iff in H as [?|?]
    | H : _ && _ = false |- _ => apply andb_false_iff in H as [?|?]
    | H : _ || _ = false |- _ => apply orb_false_iff in H as [??]
    | H : (_ <=? _) = true |- _ => apply N.leb_le in H
    | H : (_ <=? _) = false |- _ => apply N.leb_gt in H
    | H : (_ =? _) = true |- _ => apply N.eqb_eq in H
    | H : (_ =? _) = false |- _ => apply N.eqb_neq in H
    end;
  try done; try (f_equal; lia); try lia.

Definition may_1_title : str := cp "City Council Meeting - May 1, 2023".

Definition may_1_page : Soup :=
  {| anchors := []; block_texts := [cp "Agenda Center"; []];
     title := Some (Some may_1_title) |}.

(** A date whose month is spelt with U+017F, LATIN SMALL LETTER LONG S. *)
Definition long_s_august : str := cp "Augu" ++ [383] ++ cp "t 5, 2023".

Definition long_s_page : Soup :=
  {| anchors := []; block_texts := []; title := Some (Some long_s_august) |}.

Definition undated_page : Soup :=
  {| anchors := [cp "/AgendaCenter/ViewFile/Agenda/_777"];
     block_texts := [cp "Agenda Center"]; title := Some None |}.

(** ** Vocabulary of the further properties *)

(** The closed set of type tags. *)
Definition TYPE_TAGS : list str :=
  cp <$> ["agenda"; "minutes"; "packet"; "other"]%string.

(** The longest prefix of [s] in the class [p], and what follows it. *)
Fixpoint take_while (p : N → bool) (s : str) : str :=
  match s with
  | x :: s' => if p x then x :: take_while p s' else []
  | [] => []
  end.

Fixpoint drop_while (p : N → bool) (s : str) : str :=
  match s with
  | x :: s' => if p x then drop_while p s' else s
  | [] => []
  end.

(** The literal part of [meeting_id_pattern]. *)
Definition MEETING_PATH : str := cp "/AgendaCenter/26/".

Definition slashed_and_bare : str * str := (cp "/Archive.aspx", cp "Archive.aspx").

Definition two_file_page : Soup :=
  {| anchors := [cp "/AgendaCenter/ViewFile/Minutes/_05012023-501";
                 cp "/DocumentCenter/View/77/Budget.XLSX";
                 cp "/AgendaCenter/Search"];
     block_texts := []; title := None |}.

Definition nested_listing_href : str := cp "https://www.joplinmo.org".

Definition meeting_501_parts : str * str * str :=
  (cp "https://www.joplinmo.org", cp "501", cp "?MOBILE=ON&year=2023").

(** ["01"], ..., ["12"] *)
Definition MONTH_NUMBERS : list str := two_digits <$> seq 1 12.

(** [g] reads <month name> <white space> <one or two digits> [,]
    <white space> <four digits>, the month in any spelling the case
    folding of [re.IGNORECASE] accepts. *)
Definition spells_date {U : UnicodeData} (g : str) : Prop :=
  ∃ w mo sp1 d comma sp2 y,
    w ∈ month_list ∧ ci_word w mo
    ∧ sp1 ≠ [] ∧ Forall (fun x => is_space x = true) sp1
    ∧ Forall (fun x => is_decimal x = true) d ∧ (1 ≤ length d ≤ 2)%nat
    ∧ (comma = [] ∨ comma = [44])
    ∧ sp2 ≠ [] ∧ Forall (fun x => is_space x = true) sp2
    ∧ Forall (fun x => is_decimal x = true) y ∧ length y = 4%nat
    ∧ g = mo ++ sp1 ++ d ++ comma ++ sp2 ++ y.

Definition heading_with_date : str := cp "Regular Meeting, monday JUNE  5 2023 6:00 PM".

Definition dated_heading_page : Soup :=
  {| anchors := []; block_texts := [cp "Agenda"; heading_with_date];
     title := Some (Some (cp "Agenda Center")) |}.

(** [m] can raise no exception outside [E]. *)
Definition raises_only (E : exn → Prop) {A} (m : M A) : Prop :=
  ∀ w e w', m w = (Raise e, w') → E e.

(** A site on which every page request fails and every download is cut
    after one byte. *)
Definition flaky_site : Network := {|
  http_get := fun _ _ => None;
  http_stream := fun _ _ => Broken [Byte.x78]
|}.

(** A site that serves the canned page for every request. *)
Definition serving_site : Network := {|
  http_get := fun _ _ => Some [];
  http_stream := fun _ _ => Complete []
|}.

(** The world with [e1], ..., [en] added to the trace. *)
Definition with_events (w : World) (es : list event) : World :=
  {| files := files w; trace := trace w ++ es |}.

Definition is_sleep (e : event) : bool :=
  match e with Sleep => true | _ => false end.
Definition is_saved (e : event) : bool :=
  match e with Print (Saved _) => true | _ => false end.
Definition is_stream (e : event) : bool :=
  match e with Stream _ _ => true | _ => false end.

Fixpoint count (f : event → bool) (tr : list event) : nat :=
  match tr with
  | [] => 0
  | e :: tr' => (if f e then 1 else 0) + count f tr'
  end.

(** The traces in which the pauses are where the program puts them: a
    download that is started is followed either by the pause and the
    "saved" line for its destination, or by the "failed" line for its URL;
    no pause and no "saved" line occurs anywhere else. *)
Inductive paced : list event → Prop :=
  | paced_nil : paced []
  | paced_saved url dst tr :
      paced tr → paced (Stream url dst :: Sleep :: Print (Saved dst) :: tr)
  | paced_failed url dst tr :
      paced tr → paced (Stream url dst :: Print (DownloadFailed url) :: tr)
  | paced_other e tr :
      is_stream e = false → is_sleep e = false → is_saved e = false →
      paced tr → paced (e :: tr).

(** Every pause in [tr] comes right after the start of a download and right
    before the "saved" line for the destination of that download, and every
    "saved" line comes right after such a pause. *)
Definition pauses_in_place (tr : list event) : Prop :=
  (∀ tr1 tr2, tr = tr1 ++ Sleep :: tr2 →
     ∃ tr0 url dst tr3, tr1 = tr0 ++ [Stream url dst]
                        ∧ tr2 = Print (Saved dst) :: tr3)
  ∧ (∀ tr1 dst tr2, tr = tr1 ++ Print (Saved dst) :: tr2 →
       ∃ tr0 url, tr1 = tr0 ++ [Stream url dst; Sleep]).

(** The URLs of the page requests in [tr], oldest first. *)
Definition page_requests (tr : list event) : list str :=
  omap (fun e => match e with Get url => Some url | _ => None end) tr.

(** [m] adds to the trace, and what it adds satisfies [Q]. *)
Definition adds (Q : list event → Prop) {A} (m : M A) : Prop :=
  ∀ w, ∃ tr, trace (m w).2 = trace w ++ tr ∧ Q tr.

Definition listing_without_meetings : Soup :=
  {| anchors := [cp "/AgendaCenter"; cp "/agendacenter/26/501"];
     block_texts := []; title := None |}.

(** [m] takes every world to one related to it by [R]. *)
Definition respects (R : World → World → Prop) {A} (m : M A) : Prop :=
  ∀ w, R w (m w).2.

(** Every file of [w'] is a file of [w] or has a path in [G]. *)
Definition new_files_in (G : str → Prop) (w w' : World) : Prop :=
  ∀ p, is_Some (files w' !! p) → is_Some (files w !! p) ∨ G p.

(** [p] names an entry of the directory [dir] itself: [dir], a slash, and
    one path component that is neither ["."] nor [".."]. *)
Definition direct_child (dir p : str) : Prop :=
  ∃ f, p = joinpath dir f ∧ (47 ∉ f) ∧ f ≠ cp "." ∧ f ≠ cp "..".

(** One page that serves as listing and as meeting page. *)
Definition one_meeting_page : Soup :=
  {| anchors := [cp "/AgendaCenter/26/501";
                 cp "/AgendaCenter/ViewFile/Agenda/_05012023-501"];
     block_texts := [cp "May 1, 2023"]; title := None |}.

Definition undated_soup : Soup :=
  {| anchors := []; block_texts := [cp "Agenda Center"]; title := None |}.

Definition three_distinct_links : Soup :=
  {| anchors := [cp "/AgendaCenter/26/501"; cp "/Calendar.aspx";
                 cp "/AgendaCenter/26/502"];
     block_texts := []; title := None |}.


(** The tables agree with ASCII on the digits 0-9 and do not take the
    question mark for a digit. *)
Definition ascii_digits_known (U : UnicodeData) : Prop :=
  (∀ c, 48 ≤ c ≤ 57 → is_decimal c = true ∧ decimal_value c = c - 48)
  ∧ is_decimal 63 = false.

(** A listing page with two meetings, one of them linked twice. *)
Definition two_meetings_listing : Soup :=
  {| anchors := [cp "/AgendaCenter/26/501"; cp "/AgendaCenter/26/502";
                 cp "/AgendaCenter/26/501"];
     block_texts := []; title := None |}.

(** Whether [int()] accepts the digit run the pattern finds in [href], if
    it finds one. *)
Definition href_within_limit {U : UnicodeData} (href : str) : bool :=
  match search meeting_id_pattern href with
  | Some m => within_int_limit (group m 1)
  | None => true
  end.

(** No anchor holds a meeting id too long for [int()]. *)
Definition ids_within_limit {U : UnicodeData} (hrefs : list str) : bool :=
  forallb href_within_limit hrefs.

(** A listing page with a link to /AgendaCenter/26/00...07, the id written
    with 4301 digits. *)
Definition long_id_href : str := cp "/AgendaCenter/26/" ++ replicate 4300 48 ++ [55].

Definition long_id_listing : Soup :=
  {| anchors := [long_id_href]; block_texts := []; title := None |}.

(** The title of [may_1_title] in capitals and in small letters. *)
Definition may_1_upper : str := cp "CITY COUNCIL MEETING - MAY 1, 2023".
Definition may_1_lower : str := cp "city council meeting - may 1, 2023".

(** A page whose heading spells August with U+017F and whose title holds a
    date in plain letters. *)
Definition long_s_heading_page : Soup :=
  {| anchors := []; block_texts := [long_s_august];
     title := Some (Some may_1_title) |}.

(** The text a path may end in after its last component: slashes, and
    components that are a single dot. *)
Inductive trailing : str → Prop :=
  | trailing_nil : trailing []
  | trailing_slash t : trailing t → trailing (47 :: t)
  | trailing_dot t : trailing t → trailing (47 :: 46 :: t).

(** [name] is the last path component of [url]: it holds no slash, is
    neither empty nor a single dot, starts the URL or follows a slash, and
    only slashes and single-dot components come after it. *)
Definition last_component (url name : str) : Prop :=
  (47 ∉ name) ∧ name ≠ [] ∧ name ≠ cp "."
  ∧ ∃ dir trail, url = dir ++ name ++ trail
                 ∧ (dir = [] ∨ ∃ d, dir = d ++ [47])
                 ∧ trailing trail.

(** [url] has no path component: it is made of slashes and single dots
    between them only. *)
Definition no_component (url : str) : Prop :=
  ∃ t, trailing t ∧ (url = t ∨ url = 46 :: t).

(** [sep.join(l)] *)
Fixpoint join (sep : N) (l : list str) : str :=
  match l with
  | [] => []
  | [x] => x
  | x :: rest => x ++ sep :: join sep rest
  end.

(** ** Properties of text operations *)

Lemma length_zfill width s : (length s ≤ width)%nat → length (zfill width s) = width.
Proof.
  intros Hle. unfold zfill. destruct s as [|c rest].
  - rewrite length_replicate. simpl. lia.
  - destruct ((c =? 43) || (c =? 45)); simpl in *;
      rewrite length_app, length_replicate; simpl; lia.
Qed.

Lemma startswith_spec s p : startswith s p = true ↔ ∃ r, s = p ++ r.
Proof.
  revert s. induction p as [|a p IH]; intros s; simpl.
  - split; [intros _; by exists s | done].
  - destruct s as [|b s].
    + split; [done | intros [r Hr]; discriminate].
    + rewrite andb_true_iff, N.eqb_eq, IH. split.
      * intros [-> [r ->]]. by exists r.
      * intros [r Hr]. injection Hr as -> ->. eauto.
Qed.

Lemma contains_spec s sub : contains s sub = true ↔ ∃ a b, s = a ++ sub ++ b.
Proof.
  induction s as [|x s IH]; simpl.
  - rewrite orb_false_r, startswith_spec. split.
    + intros [r Hr]. by exists [], r.
    + intros (a & b & Hab). destruct a; [by exists b | discriminate].
  - rewrite orb_true_iff, startswith_spec, IH. split.
    + intros [[r Hr] | (a & b & ->)]; [by exists [], r | by exists (x :: a), b].
    + intros ([|y a] & b & Hab); [left; by exists b |].
      injection Hab as -> ->. right. eauto.
Qed.

(** A text that contains [u ++ v] contains [v]. *)
Lemma contains_tail s u v : contains s (u ++ v) = true → contains s v = true.
Proof.
  rewrite !contains_spec. intros (a & b & ->).
  exists (a ++ u), b. by rewrite <- !(assoc_L (++)).
Qed.

Lemma contains_tail_orb s u v :
  contains s v || contains s (u ++ v) = contains s v.
Proof.
  destruct (contains s v) eqn:Hv; [done |].
  destruct (contains s (u ++ v)) eqn:Huv; [| done].
  apply contains_tail in Huv. congruence.
Qed.

(** ** Properties of the order-preserving de-duplication *)

Section DedupFacts.
Context `{Countable A}.
Implicit Types (l seen : list A) (x : A).

Lemma dedup_loop_keep_first l : ∀ (S : gset A) seen uniq,
  (∀ x, x ∈ S ↔ x ∈ seen) →
  (foldl dedup_step (S, uniq) l).2 = uniq ++ keep_first seen l.
Proof.
  induction l as [|a l IH]; intros S seen uniq HS; simpl.
  - by rewrite app_nil_r.
  - destruct (decide (a ∈ S)) as [Hin | Hin];
      destruct (decide (a ∈ seen)) as [Hin' | Hin']; try (exfalso; naive_solver).
    + by apply IH.
    + rewrite (IH _ (a :: seen)); [by rewrite <- (assoc_L (++)) |].
      intros x. rewrite elem_of_union, elem_of_singleton, elem_of_cons.
      by rewrite HS.
Qed.

Lemma dedup_keep_first l : dedup l = keep_first [] l.
Proof.
  unfold dedup. rewrite (dedup_loop_keep_first l ∅ [] []); [done |].
  intros x. rewrite elem_of_nil. set_solver.
Qed.

Lemma keep_first_elem_of seen l x :
  x ∈ keep_first seen l ↔ x ∈ l ∧ x ∉ seen.
Proof.
  revert seen. induction l as [|a l IH]; intros seen; simpl.
  - rewrite !elem_of_nil. tauto.
  - destruct (decide (a ∈ seen)) as [Hin | Hin].
    + rewrite IH, elem_of_cons. naive_solver.
    + rewrite !elem_of_cons, IH, elem_of_cons.
      destruct (decide (x = a)); naive_solver.
Qed.

Lemma keep_first_NoDup seen l : NoDup (keep_first seen l).
Proof.
  revert seen. induction l as [|a l IH]; intros seen; simpl.
  - constructor.
  - destruct (decide (a ∈ seen)); [apply IH |].
    constructor; [| apply IH].
    rewrite keep_first_elem_of, elem_of_cons. naive_solver.
Qed.

Lemma first_index_elem_of x l : x ∈ l → is_Some (first_index x l).
Proof.
  induction l as [|a l IH]; [by rewrite elem_of_nil |].
  rewrite elem_of_cons. intros Hx. simpl.
  destruct (decide (x = a)); [eauto |].
  destruct IH as [p ->]; [naive_solver | eauto].
Qed.

Lemma keep_first_order seen l i j x y :
  keep_first seen l !! i = Some x → keep_first seen l !! j = Some y →
  (i < j)%nat →
  ∃ p q, first_index x l = Some p ∧ first_index y l = Some q ∧ (p < q)%nat.
Proof.
  revert seen i j. induction l as [|a l IH]; intros seen i j; simpl; [done |].
  destruct (decide (a ∈ seen)) as [Hin | Hin].
  - intros Hx Hy Hij.
    destruct (IH _ _ _ Hx Hy Hij) as (p & q & Hp & Hq & Hpq).
    assert (x ≠ a ∧ y ≠ a) as [??].
    { apply list_elem_of_lookup_2, keep_first_elem_of in Hx, Hy.
      naive_solver. }
    rewrite !decide_False by done. rewrite Hp, Hq.
    exists (S p), (S q). simpl. repeat split; lia.
  - destruct j as [|j]; [lia |]. simpl. intros Hx Hy Hij.
    assert (y ≠ a ∧ y ∈ l) as [Hya Hyl].
    { apply list_elem_of_lookup_2, keep_first_elem_of in Hy.
      rewrite elem_of_cons in Hy. naive_solver. }
    rewrite (decide_False (P := y = a)) by done.
    destruct i as [|i]; simpl in Hx.
    + injection Hx as ->. rewrite decide_True by done.
      destruct (first_index_elem_of y l Hyl) as [q ->].
      exists 0%nat, (S q). simpl. repeat split; lia.
    + assert (Hij' : (i < j)%nat) by lia.
      destruct (IH _ _ _ Hx Hy Hij') as (p & q & Hp & Hq & Hpq).
      assert (x ≠ a).
      { apply list_elem_of_lookup_2, keep_first_elem_of in Hx.
        rewrite elem_of_cons in Hx. naive_solver. }
      rewrite decide_False by done. rewrite Hp, Hq.
      exists (S p), (S q). simpl. repeat split; lia.
Qed.

Lemma dedup_first_seen_order l : first_seen_order l (dedup l).
Proof.
  rewrite dedup_keep_first. split; [apply keep_first_NoDup |]. split.
  - intros x. rewrite keep_first_elem_of, elem_of_nil. tauto.
  - apply keep_first_order.
Qed.
End DedupFacts.

(** A loop that appends what [g] finds collects [omap g]. *)
Lemma foldl_append_omap {A B} (g : A → option B) (f : list B → A → list B)
    (l : list A) (acc : list B) :
  (∀ acc x, f acc x = match g x with Some b => acc ++ [b] | None => acc end) →
  foldl f acc l = acc ++ omap g l.
Proof.
  intros Hf. revert acc. induction l as [|x l IH]; intros acc; simpl.
  - by rewrite app_nil_r.
  - rewrite IH, Hf. destruct (g x); [by rewrite <- (assoc_L (++)) | done].
Qed.

(** ** Meeting-ID extraction *)

Lemma omap_cons_match {A B} (f : A → option B) x l :
  omap f (x :: l) = match f x with Some y => y :: omap f l | None => omap f l end.
Proof. done. Qed.

(** The first loop collects the id of every anchor that has one, unless one
    of them is too long for [int()]. *)
Lemma collect_ids_from_eq {U : UnicodeData} (hrefs : list str) : ∀ ids,
  collect_ids_from ids hrefs
  = if ids_within_limit hrefs then Ok (ids ++ omap href_meeting_id hrefs)
    else Raise ValueError.
Proof.
  induction hrefs as [|href rest IH]; intros ids.
  - simpl. by rewrite app_nil_r.
  - cbn [collect_ids_from]. rewrite omap_cons_match.
    unfold ids_within_limit. cbn [forallb]. fold (ids_within_limit rest).
    unfold href_within_limit, href_meeting_id at 1, py_int.
    destruct (search meeting_id_pattern href) as [m|]; simpl.
    + destruct (within_int_limit (group m 1)); simpl; [| done].
      rewrite IH. destruct (ids_within_limit rest); [| done].
      by rewrite <- (assoc_L (++)).
    + apply IH.
Qed.

Lemma extract_meeting_ids_eq {U : UnicodeData} {P : HtmlParser} (list_html : str) :
  extract_meeting_ids list_html
  = if ids_within_limit (anchors (BeautifulSoup list_html))
    then Ok (dedup (omap href_meeting_id (anchors (BeautifulSoup list_html))))
    else Raise ValueError.
Proof.
  unfold extract_meeting_ids, collect_ids. rewrite collect_ids_from_eq.
  by destruct (ids_within_limit _).
Qed.

Lemma ids_within_limit_no_match {U : UnicodeData} (hrefs : list str) :
  (∀ href, href ∈ hrefs → search meeting_id_pattern href = None) →
  ids_within_limit hrefs = true ∧ omap href_meeting_id hrefs = [].
Proof.
  induction hrefs as [|h l IH]; intros Hnone; [done |].
  destruct IH as [Hl Hids]; [intros ??; apply Hnone; by right |].
  unfold ids_within_limit. cbn [forallb]. rewrite omap_cons_match.
  unfold href_within_limit, href_meeting_id at 1.
  rewrite (Hnone h) by left. simpl. by split.
Qed.

Lemma collect_files_omap {U : UnicodeData} (hrefs : list str) :
  collect_files hrefs = omap link_entry hrefs.
Proof.
  unfold collect_files. by rewrite (foldl_append_omap link_entry).
Qed.

(** C4, as the code has it. For every listing page none of whose meeting
    ids is too long for [int()], meeting-ID extraction returns the distinct
    ids matched in the anchors, in first-seen order; any list it returns is
    that one; the only other outcome is the ValueError of [int()], on a page
    with an id over the limit.  When no anchor matches the result is the
    empty list, and a page with two links to /AgendaCenter/26/501 yields
    [501]. *)
Theorem extract_meeting_ids_first_seen {U : UnicodeData} {P : HtmlParser}
    (list_html : str) :
  let hrefs := anchors (BeautifulSoup list_html) in
  (ids_within_limit hrefs = true →
   ∃ ids, extract_meeting_ids list_html = Ok ids
          ∧ first_seen_order (omap href_meeting_id hrefs) ids)
  ∧ (∀ ids, extract_meeting_ids list_html = Ok ids →
       ids_within_limit hrefs = true
       ∧ first_seen_order (omap href_meeting_id hrefs) ids)
  ∧ (∀ e, extract_meeting_ids list_html = Raise e →
       e = ValueError ∧ ids_within_limit hrefs = false)
  ∧ ((∀ href, href ∈ hrefs → search meeting_id_pattern href = None) →
     extract_meeting_ids list_html = Ok [])
  ∧ (hrefs = two_links_to_501 →
     extract_meeting_ids (U := basic_latin) list_html = Ok [501]).
Proof.
  intros hrefs. rewrite extract_meeting_ids_eq. fold hrefs.
  split; [| split; [| split; [| split]]].
  - intros ->. eexists. split; [done | apply dedup_first_seen_order].
  - intros ids. destruct (ids_within_limit hrefs); [| done].
    intros [= <-]. split; [done | apply dedup_first_seen_order].
  - intros e. destruct (ids_within_limit hrefs); [done |]. by intros [= <-].
  - intros Hnone. by destruct (ids_within_limit_no_match hrefs Hnone) as [-> ->].
  - intros Heq. rewrite extract_meeting_ids_eq. fold hrefs. rewrite Heq.
    by vm_compute.
Qed.

Lemma extract_meeting_ids_first_seen_witness :
  (∃ ids,
     extract_meeting_ids (U := basic_latin)
       (P := canned {| anchors := two_links_to_501; block_texts := []; title := None |})
       [] = Ok ids
     ∧ first_seen_order (omap (href_meeting_id (U := basic_latin)) two_links_to_501) ids)
  ∧ extract_meeting_ids (U := basic_latin)
      (P := canned {| anchors := two_links_to_501; block_texts := []; title := None |})
      [] = Ok [501].
Proof.
  destruct (extract_meeting_ids_first_seen (U := basic_latin)
              (P := canned {| anchors := two_links_to_501; block_texts := [];
                               title := None |}) [])
    as (Hwithin & _ & _ & _ & Htwo).
  split; [apply Hwithin; vm_compute; reflexivity | apply Htwo; reflexivity].
Defined.

(** C4, as the specification words it, fails: a listing page with a link
    to /AgendaCenter/26/ followed by 4301 digits does not yield a list;
    [int()] refuses the run and the extraction raises ValueError, although
    the run denotes the number 7. *)
Lemma extract_meeting_ids_raises_on_long_id :
  length (drop (length (cp "/AgendaCenter/26/")) long_id_href) = 4301%nat
  ∧ href_meeting_id (U := basic_latin) long_id_href = Some 7
  ∧ extract_meeting_ids (U := basic_latin) (P := canned long_id_listing) []
    = Raise ValueError.
Proof. by vm_compute. Qed.

(** ** File-link extraction *)

(** C9. For every meeting page, file-link extraction returns the
    (url, type) pairs its anchors give, without duplicates and in
    first-seen order. *)
Theorem extract_file_links_first_seen {U : UnicodeData} {P : HtmlParser}
    (page_html : str) :
  let hrefs := anchors (BeautifulSoup page_html) in
  collect_files hrefs = omap link_entry hrefs
  ∧ first_seen_order (collect_files hrefs) (extract_file_links page_html).
Proof.
  intros hrefs. split; [apply collect_files_omap |].
  apply dedup_first_seen_order.
Qed.

Lemma direct_type_segment_type (lurl : str) : direct_type lurl = segment_type lurl.
Proof.
  unfold direct_type, segment_type.
  change (cp "/viewfile/agenda/") with (cp "/viewfile" ++ cp "/agenda/").
  change (cp "/viewfile/minutes/") with (cp "/viewfile" ++ cp "/minutes/").
  change (cp "/viewfile/packet/") with (cp "/viewfile" ++ cp "/packet/").
  by rewrite !contains_tail_orb.
Qed.

(** C2. A link whose absolute URL ends (case-insensitively) with a
    recognised document extension gets the type of the first of the
    segments /agenda/, /minutes/, /packet/ in its URL, "other" when there
    is none, whatever the ViewFile branch would say; so does in particular
    a URL ending in .pdf with /viewfile/packet/ in its path, as the
    example shows, which the ViewFile branch would have typed "packet". *)
Theorem direct_extension_takes_priority {U : UnicodeData}
    (viewfile : str → option (str * str)) (href : str) :
  let url := absolute_url href in
  (endswith_any (str_lower url) EXTENSIONS = true →
   link_entry_with viewfile href = Some (url, segment_type (str_lower url))
   ∧ link_entry href = Some (url, segment_type (str_lower url)))
  ∧ (let url0 := absolute_url packet_minutes_pdf in
     contains (@str_lower basic_latin (split_head 63 url0))
       (cp "/viewfile/packet/") = true
     ∧ viewfile_entry (U := basic_latin) url0 = Some (url0, cp "packet")
     ∧ link_entry (U := basic_latin) packet_minutes_pdf = Some (url0, cp "minutes")).
Proof.
  intros url. split.
  - intros Hext. unfold link_entry, link_entry_with. fold url.
    by rewrite Hext, direct_type_segment_type.
  - by vm_compute.
Qed.

Lemma direct_extension_takes_priority_witness :
  link_entry_with (U := basic_latin) (fun _ => None) packet_minutes_pdf
  = Some (absolute_url packet_minutes_pdf, cp "minutes").
Proof.
  refine (proj1 (proj1 (direct_extension_takes_priority (U := basic_latin)
                          (fun _ => None) packet_minutes_pdf) _)).
  vm_compute. reflexivity.
Defined.

(** What the code does on a /viewfile/agenda/ link without a document
    extension: the flag is looked for in the whole lower-cased URL. *)
Lemma viewfile_agenda_type {U : UnicodeData} (href : str) :
  let url := absolute_url href in
  endswith_any (str_lower url) EXTENSIONS = false →
  contains (str_lower (split_head 63 url)) (cp "/viewfile/agenda/") = true →
  link_entry href
  = Some (url, if contains (str_lower url) (cp "packet=true")
               then cp "packet" else cp "agenda").
Proof.
  intros url Hext Hpath. unfold link_entry, link_entry_with, viewfile_entry.
  fold url. by rewrite Hext, Hpath.
Qed.

(** C3. On /viewfile/agenda/ links without a document extension the code
    answers "packet" for a query string with packet=true and "agenda" for
    the same path without it, but it looks for packet=true in the whole
    URL: a link with packet=true in its path and no query string at all is
    typed "packet". *)
Theorem viewfile_agenda_flag_searched_in_whole_url :
  link_entry (U := basic_latin) agenda_with_flag
    = Some (absolute_url agenda_with_flag, cp "packet")
  ∧ link_entry (U := basic_latin) agenda_without_flag
    = Some (absolute_url agenda_without_flag, cp "agenda")
  ∧ (let url := absolute_url agenda_flag_in_path in
     endswith_any (@str_lower basic_latin url) EXTENSIONS = false
     ∧ contains (@str_lower basic_latin (split_head 63 url))
         (cp "/viewfile/agenda/") = true
     ∧ query_string url = []
     ∧ link_entry (U := basic_latin) agenda_flag_in_path = Some (url, cp "packet")).
Proof. by vm_compute. Qed.

(** ** Filename construction *)

Lemma rfind_None c s : rfind c s = None → c ∉ s.
Proof.
  induction s as [|x s IH]; simpl; [intros _; apply not_elem_of_nil |].
  destruct (rfind c s); [done |].
  destruct (N.eqb_spec x c); [done |]. intros _.
  rewrite elem_of_cons. naive_solver.
Qed.

Lemma rfind_Some c s i :
  rfind c s = Some i → s = take i s ++ c :: drop (S i) s ∧ c ∉ drop (S i) s.
Proof.
  revert i. induction s as [|x s IH]; intros i; simpl; [done |].
  destruct (rfind c s) as [j|] eqn:Hj.
  - intros [= <-]. destruct (IH j eq_refl) as [Hs Hnot]. simpl.
    split; [by rewrite <- Hs | done].
  - destruct (N.eqb_spec x c) as [-> |]; [| done]. intros [= <-]. simpl.
    rewrite drop_0. split; [done | by apply rfind_None].
Qed.

(** What [Path(url).suffix] is when it is not empty: the name ends with it,
    something comes before it, and it is a dot followed by at least one
    character, none of them a dot. *)
Lemma path_suffix_shape (url : str) :
  path_suffix url ≠ [] →
  ∃ stem rest, path_name url = stem ++ path_suffix url ∧ stem ≠ []
               ∧ path_suffix url = 46 :: rest ∧ rest ≠ [] ∧ 46 ∉ rest.
Proof.
  unfold path_suffix. destruct (rfind 46 (path_name url)) as [i|] eqn:Hi; [| done].
  case_bool_decide as Hrange; [| done]. intros _.
  destruct (rfind_Some _ _ _ Hi) as [Hname Hnot].
  exists (take i (path_name url)), (drop (S i) (path_name url)).
  assert (drop i (path_name url) = 46 :: drop (S i) (path_name url)) as Hdrop.
  { rewrite Hname at 1. rewrite drop_app_length'; [done |].
    rewrite length_take. lia. }
  repeat split.
  - by rewrite take_drop.
  - intros Hnil. apply (f_equal length) in Hnil.
    rewrite length_take in Hnil. simpl in Hnil. lia.
  - done.
  - intros Hnil. apply (f_equal length) in Hnil.
    rewrite length_drop in Hnil. simpl in Hnil. lia.
  - done.
Qed.

(** ** The orchestrator *)

Lemma keeps_files_refl w : keeps_files w w.
Proof.
  split; [done |]. exists []. rewrite app_nil_r. split; [done |].
  intros ?? Hin. by apply elem_of_nil in Hin.
Qed.

Lemma keeps_files_trans w1 w2 w3 :
  keeps_files w1 w2 → keeps_files w2 w3 → keeps_files w1 w3.
Proof.
  intros [Hf1 (tr1 & Ht1 & Hs1)] [Hf2 (tr2 & Ht2 & Hs2)].
  split; [by etrans |]. exists (tr1 ++ tr2).
  split; [by rewrite Ht2, Ht1, (assoc_L (++)) |].
  intros url dst [Hin | Hin]%elem_of_app; [by eapply Hs1 |].
  specialize (Hs2 _ _ Hin).
  destruct (files w1 !! dst) as [b|] eqn:Hb; [| done].
  rewrite (lookup_weaken _ _ _ _ Hb Hf1) in Hs2. done.
Qed.

Lemma keeps_files_event w e :
  (∀ url dst, e ≠ Stream url dst) →
  keeps_files w {| files := files w; trace := trace w ++ [e] |}.
Proof.
  intros He. split; [done |]. exists [e]. split; [done |].
  intros url dst Hin. apply list_elem_of_singleton in Hin. by destruct (He url dst).
Qed.

Lemma file_safe_ret {A} (a : A) : file_safe (ret a).
Proof. intros w. apply keeps_files_refl. Qed.

Lemma file_safe_lift {A} (r : result A) : file_safe (lift r).
Proof. intros w. apply keeps_files_refl. Qed.

Lemma file_safe_bind {A B} (m : M A) (f : A → M B) :
  file_safe m → (∀ a, file_safe (f a)) → file_safe (bind m f).
Proof.
  intros Hm Hf w. unfold bind. specialize (Hm w).
  destruct (m w) as [[a | e] w']; [| done].
  eapply keeps_files_trans; [exact Hm | apply Hf].
Qed.

Lemma file_safe_try_except {A} (m : M A) (h : exn → M A) :
  file_safe m → (∀ e, file_safe (h e)) → file_safe (try_except m h).
Proof.
  intros Hm Hh w. unfold try_except. specialize (Hm w).
  destruct (m w) as [[a | e] w']; [done |].
  eapply keeps_files_trans; [exact Hm | apply Hh].
Qed.

Lemma file_safe_for_each {A} (l : list A) (body : A → M unit) :
  (∀ x, file_safe (body x)) → file_safe (for_each l body).
Proof.
  intros Hbody. induction l as [|x l IH]; simpl.
  - apply file_safe_ret.
  - apply file_safe_bind; [apply Hbody | intros _; apply IH].
Qed.

Lemma file_safe_emit e : (∀ url dst, e ≠ Stream url dst) → file_safe (emit e).
Proof. intros He w. by apply keeps_files_event. Qed.

Lemma file_safe_print m : file_safe (print m).
Proof. by apply file_safe_emit. Qed.

Lemma for_each_app {A} (l1 l2 : list A) (body : A → M unit) w :
  for_each (l1 ++ l2) body w
  = match for_each l1 body w with
    | (Ok _, w1) => for_each l2 body w1
    | (Raise e, w1) => (Raise e, w1)
    end.
Proof.
  revert w. induction l1 as [|x l1 IH]; intros w; simpl; [done |].
  unfold bind. destruct (body x w) as [[[] | e] w']; [apply IH | done].
Qed.

Section OrchestratorFacts.
Context {U : UnicodeData} {P : HtmlParser} {Net : Network}.

Lemma mkdir_year_world out_root year_dir w : (mkdir_year out_root year_dir w).2 = w.
Proof. unfold mkdir_year. by case_bool_decide. Qed.

Lemma file_safe_mkdir_year out_root year_dir : file_safe (mkdir_year out_root year_dir).
Proof. intros w. rewrite mkdir_year_world. apply keeps_files_refl. Qed.

Lemma file_safe_fetch url : file_safe (fetch url).
Proof.
  intros w. unfold fetch.
  destruct (http_get _ _); by apply keeps_files_event.
Qed.

Lemma process_file_skips year_dir date_str file_url ftype w :
  is_Some (files w !! joinpath year_dir (build_filename date_str ftype file_url)) →
  process_file year_dir date_str (file_url, ftype) w = (Ok tt, w).
Proof.
  intros Hsome. unfold process_file, bind, path_exists.
  by rewrite bool_decide_eq_true_2.
Qed.

Lemma download_to_fresh url dst w :
  files w !! dst = None → keeps_files w (download url dst w).2.
Proof.
  intros Hnone. unfold download.
  assert (∀ b, keeps_files w {| files := <[dst := b]> (files w);
                                trace := trace w ++ [Stream url dst] |}) as Hins.
  { intros b. split; [by apply insert_subseteq |].
    exists [Stream url dst]. split; [done |].
    intros u d Hin. apply list_elem_of_singleton in Hin. by injection Hin as -> ->. }
  destruct (http_stream _ _); simpl; [| apply Hins | apply Hins].
  split; [done |]. exists [Stream url dst]. split; [done |].
  intros u d Hin. apply list_elem_of_singleton in Hin. by injection Hin as -> ->.
Qed.

Lemma file_safe_process_file year_dir date_str link :
  file_safe (process_file year_dir date_str link).
Proof.
  destruct link as [file_url ftype]. intros w.
  set (dst := joinpath year_dir (build_filename date_str ftype file_url)).
  destruct (files w !! dst) as [b|] eqn:Hdst.
  - rewrite process_file_skips by (fold dst; rewrite Hdst; eauto).
    apply keeps_files_refl.
  - unfold process_file, bind at 1, path_exists. fold dst.
    rewrite bool_decide_eq_false_2 by (rewrite Hdst; by intros [??]).
    unfold try_except, bind.
    pose proof (download_to_fresh file_url dst w Hdst) as Hdl.
    destruct (download file_url dst w) as [[[] | e] w1]; simpl in *.
    + eapply keeps_files_trans; [exact Hdl |].
      eapply keeps_files_trans; [by apply (file_safe_emit Sleep) |].
      apply file_safe_print.
    + eapply keeps_files_trans; [exact Hdl | apply file_safe_print].
Qed.

Lemma file_safe_process_meeting year year_dir meeting_id :
  file_safe (process_meeting year year_dir meeting_id).
Proof.
  unfold process_meeting. apply file_safe_bind.
  - apply file_safe_try_except.
    + apply file_safe_bind; [apply file_safe_fetch | intros; apply file_safe_ret].
    + intros _. apply file_safe_bind; [apply file_safe_print |].
      intros; apply file_safe_ret.
  - intros [html |]; [| apply file_safe_ret].
    apply file_safe_bind.
    + unfold meeting_date_str. apply file_safe_bind; [apply file_safe_lift |].
      intros; apply file_safe_ret.
    + intros d. apply file_safe_for_each. intros link.
      apply file_safe_process_file.
Qed.

Lemma file_safe_scrape_year year out_root : file_safe (scrape_year year out_root).
Proof.
  unfold scrape_year. apply file_safe_bind; [apply file_safe_print |]. intros _.
  apply file_safe_bind; [apply file_safe_fetch |]. intros html.
  apply file_safe_bind; [apply file_safe_lift |].
  intros [|id ids]; [apply file_safe_print |].
  apply file_safe_bind; [apply file_safe_mkdir_year |]. intros _.
  apply file_safe_for_each. intros id'. apply file_safe_process_meeting.
Qed.

Lemma file_safe_main : file_safe main.
Proof.
  apply file_safe_for_each. intros yr. apply file_safe_scrape_year.
Qed.
End OrchestratorFacts.

(** C8. A file link whose destination already exists is skipped whole:
    the step changes neither the files nor the trace, so no download is
    started and no request is issued for it.  Over a whole run, every file
    present at the start is still there with its content at the end, and
    no download of the run goes to a path that held a file at the start,
    however the site answers and whether or not the run ends in an
    exception. *)
Theorem existing_destination_is_skipped {U : UnicodeData} {P : HtmlParser}
    {Net : Network} (year_dir date_str file_url ftype : str) (w : World) :
  (is_Some (files w !! joinpath year_dir (build_filename date_str ftype file_url)) →
   process_file year_dir date_str (file_url, ftype) w = (Ok tt, w))
  ∧ (∀ year out_root, keeps_files w (scrape_year year out_root w).2)
  ∧ keeps_files w (main w).2.
Proof.
  split; [apply process_file_skips |].
  split; [intros; apply file_safe_scrape_year | apply file_safe_main].
Qed.

Lemma existing_destination_is_skipped_witness :
  process_file (Net := site_down) (cp "joplin_council_pdfs/2023") (cp "05012023")
    (cp "https://www.joplinmo.org/AgendaCenter/ViewFile/Agenda/_05012023-501.pdf",
     cp "agenda") one_saved_file
  = (Ok tt, one_saved_file).
Proof.
  refine (proj1 (existing_destination_is_skipped (U := basic_latin)
                   (P := canned no_soup) (Net := site_down)
                   (cp "joplin_council_pdfs/2023") (cp "05012023")
                   (cp "https://www.joplinmo.org/AgendaCenter/ViewFile/Agenda/_05012023-501.pdf")
                   (cp "agenda") one_saved_file) _).
  vm_compute. exists []. reflexivity.
Defined.

(** ** Failure of a listing fetch *)

Section ListingFailure.
Context {U : UnicodeData} {P : HtmlParser} {Net : Network}.

Lemma scrape_year_listing_failure year out_root w :
  http_get (S (length (trace w))) (list_url year) = None →
  scrape_year year out_root w = (Raise RequestException, after_failed_listing year w).
Proof.
  intros Hfail. unfold scrape_year, bind, print, emit, fetch. simpl.
  rewrite length_app. simpl. rewrite Nat.add_1_r, Hfail.
  unfold after_failed_listing. by rewrite <- (assoc_L (++)).
Qed.

(** What a year does once its listing page has arrived. *)
Lemma scrape_year_after_listing year out_root list_html w :
  http_get (S (length (trace w))) (list_url year) = Some list_html →
  scrape_year year out_root w
  = match extract_meeting_ids list_html with
    | Raise e => (Raise e, after_failed_listing year w)
    | Ok [] => (Ok tt, with_events w [Print (Scraping year); Get (list_url year);
                                     Print (NoMeetings year)])
    | Ok (id :: ids) =>
        if bool_decide (is_Some (files w !! out_root)
                        ∨ is_Some (files w !! joinpath out_root (str_of_int year)))
        then (Raise OSError, after_failed_listing year w)
        else for_each (id :: ids)
               (process_meeting year (joinpath out_root (str_of_int year)))
               (after_failed_listing year w)
    end.
Proof.
  intros Hget. unfold scrape_year, bind at 1, print, emit, bind at 1, fetch.
  simpl. rewrite length_app, Nat.add_1_r, Hget.
  unfold bind at 1, lift, with_events, after_failed_listing.
  rewrite <- !(assoc_L (++)). simpl.
  destruct (extract_meeting_ids list_html) as [[|id ids] | e]; simpl.
  - unfold emit. simpl. by rewrite <- !(assoc_L (++)).
  - unfold bind at 1, mkdir_year. simpl. by case_bool_decide.
  - done.
Qed.
End ListingFailure.

(** C1, as the code has it. When the fetch of a year's listing page fails,
    [scrape_year] raises once it has printed its header and issued that one
    request, and nothing catches the exception: [main] ends with it, and
    the years after the failed one are not processed. *)
Theorem listing_failure_ends_the_run {U : UnicodeData} {P : HtmlParser}
    {Net : Network} (before after : list N) (year : N) (w w1 : World) :
  YEARS = before ++ year :: after →
  for_each before (fun yr => scrape_year yr OUT_ROOT) w = (Ok tt, w1) →
  http_get (S (length (trace w1))) (list_url year) = None →
  scrape_year year OUT_ROOT w1 = (Raise RequestException, after_failed_listing year w1)
  ∧ main w = (Raise RequestException, after_failed_listing year w1).
Proof.
  intros Hyears Hbefore Hfail.
  pose proof (scrape_year_listing_failure year OUT_ROOT w1 Hfail) as Hyear.
  split; [done |].
  unfold main. rewrite Hyears, for_each_app, Hbefore. simpl.
  unfold bind. by rewrite Hyear.
Qed.

Lemma listing_failure_ends_the_run_witness :
  scrape_year (U := basic_latin) (P := canned no_soup) (Net := only_2022_listing)
    2023 OUT_ROOT after_empty_2022
  = (Raise RequestException, after_failed_listing 2023 after_empty_2022)
  ∧ main (U := basic_latin) (P := canned no_soup) (Net := only_2022_listing)
      empty_world
    = (Raise RequestException, after_failed_listing 2023 after_empty_2022).
Proof.
  apply (listing_failure_ends_the_run (U := basic_latin) (P := canned no_soup)
           (Net := only_2022_listing) [2022] [2024; 2025] 2023 empty_world
           after_empty_2022).
  - reflexivity.
  - vm_compute. reflexivity.
  - vm_compute. reflexivity.
Defined.

(** C1, as the specification words it, fails: with the site down the fetch
    of the 2022 listing fails, and the driver does not go on to 2023: the
    run ends with the exception after that single request. *)
Lemma driver_does_not_proceed_to_next_year :
  let run := main (U := basic_latin) (P := canned no_soup) (Net := site_down)
               empty_world in
  In 2022 YEARS ∧ In 2023 YEARS
  ∧ http_get (Network := site_down) 1 (list_url 2022) = None
  ∧ run.1 = Raise RequestException
  ∧ trace run.2 = [Print (Scraping 2022); Get (list_url 2022)]
  ∧ ¬ In (Get (list_url 2023)) (trace run.2)
  ∧ ¬ In (Print (Scraping 2023)) (trace run.2).
Proof.
  vm_compute. repeat split; try tauto.
  - intros [H | [H | []]]; discriminate H.
  - intros [H | [H | []]]; discriminate H.
Qed.

(** ** What a match of the matcher is *)

Lemma rep_sound {T} p (s : str) : ∀ lo hi (k : str → option T) t,
  rep p lo hi s k = Some t →
  ∃ g rest, s = g ++ rest ∧ Forall (fun x => p x = true) g ∧ (lo ≤ length g)%nat
            ∧ (∀ h, hi = Some h → (length g ≤ h)%nat) ∧ k rest = Some t.
Proof.
  assert (∀ lo hi (k : str → option T) t (s : str),
            match lo with O => k s | S _ => None end = Some t →
            ∃ g rest, s = g ++ rest ∧ Forall (fun x => p x = true) g
                      ∧ (lo ≤ length g)%nat
                      ∧ (∀ h, hi = Some h → (length g ≤ h)%nat) ∧ k rest = Some t)
    as Hstop.
  { intros [|lo] hi k t s0 Hk; [| done]. exists [], s0. simpl.
    repeat split; [constructor | lia | intros; lia | done]. }
  induction s as [|x s IH]; intros lo hi k t; simpl; [apply Hstop |].
  destruct (p x && more_allowed hi) eqn:Hpx; [| apply Hstop].
  destruct (rep p (pred lo) (pred <$> hi) s k) as [t'|] eqn:Hrep; [| apply Hstop].
  intros [= ->]. apply andb_true_iff in Hpx as [Hp Hmore].
  destruct (IH _ _ _ _ Hrep) as (g & rest & -> & Hall & Hlo & Hhi & Hk).
  exists (x :: g), rest. simpl. repeat split; [by constructor | lia | | done].
  intros h ->. destruct h as [|h]; [done |]. specialize (Hhi h eq_refl). lia.
Qed.

Lemma exec_sound {T} r : ∀ s c (k : str → captures → option T) t,
  exec r s c k = Some t →
  ∃ g rest c', s = g ++ rest ∧ matches r g c c' ∧ k rest c' = Some t.
Proof.
  induction r as [| a | a | p lo hi | r IH | r1 IH1 r2 IH2 | r1 IH1 r2 IH2 | i r IH];
    intros s c k t; simpl.
  - intros Hk. exists [], s, c. repeat split; [constructor | done].
  - destruct s as [|x s]; [done |]. destruct (N.eqb_spec x a) as [-> |]; [| done].
    intros Hk. exists [a], s, c. repeat split; [constructor | done].
  - destruct s as [|x s]; [done |]. destruct (ignorecase_eq a x) eqn:Hax; [| done].
    intros Hk. exists [x], s, c. repeat split; [by constructor | done].
  - intros Hrep. apply rep_sound in Hrep as (g & rest & -> & Hall & Hlo & Hhi & Hk).
    exists g, rest, c. repeat split; [by constructor | done].
  - destruct (exec r s c k) as [t'|] eqn:Hr.
    + intros [= ->]. destruct (IH _ _ _ _ Hr) as (g & rest & c' & -> & Hm & Hk).
      exists g, rest, c'. repeat split; [by constructor | done].
    + intros Hk. exists [], s, c. repeat split; [apply matches_opt_none | done].
  - intros H1. destruct (IH1 _ _ _ _ H1) as (g1 & rest1 & c1 & -> & Hm1 & H2).
    destruct (IH2 _ _ _ _ H2) as (g2 & rest & c2 & -> & Hm2 & Hk).
    exists (g1 ++ g2), rest, c2. rewrite <- (assoc_L (++)).
    repeat split; [by econstructor | done].
  - destruct (exec r1 s c k) as [t'|] eqn:H1.
    + intros [= ->]. destruct (IH1 _ _ _ _ H1) as (g & rest & c' & -> & Hm & Hk).
      exists g, rest, c'. repeat split; [by apply matches_alt_l | done].
    + intros H2. destruct (IH2 _ _ _ _ H2) as (g & rest & c' & -> & Hm & Hk).
      exists g, rest, c'. repeat split; [by apply matches_alt_r | done].
  - intros Hr. destruct (IH _ _ _ _ Hr) as (g & rest & c' & -> & Hm & Hk).
    rewrite length_app, Nat.add_sub, take_app_length in Hk.
    exists g, rest, (<[i := g]> c'). repeat split; [by constructor | done].
Qed.

Lemma match_here_sound r s m :
  match_here r s = Some m → ∃ g rest, s = g ++ rest ∧ matches r g ∅ m.
Proof.
  intros Hm. apply exec_sound in Hm as (g & rest & c' & -> & Hm & [= <-]). eauto.
Qed.

Lemma search_sound r s m :
  search r s = Some m → ∃ before g rest, s = before ++ g ++ rest ∧ matches r g ∅ m.
Proof.
  induction s as [|x s IH]; simpl.
  - destruct (match_here r []) as [c|] eqn:Hc; [| done]. intros [= ->].
    apply match_here_sound in Hc as (g & rest & Hs & Hm). by exists [], g, rest.
  - destruct (match_here r (x :: s)) as [c|] eqn:Hc.
    + intros [= ->]. apply match_here_sound in Hc as (g & rest & Hs & Hm).
      by exists [], g, rest.
    + intros Hs. destruct (IH Hs) as (before & g & rest & -> & Hm).
      by exists (x :: before), g, rest.
Qed.

(** ** The date pattern *)

Lemma matches_seq_inv r1 r2 g c c' :
  matches (Seq r1 r2) g c c' →
  ∃ g1 g2 c1, g = g1 ++ g2 ∧ matches r1 g1 c c1 ∧ matches r2 g2 c1 c'.
Proof. inversion 1; subst. eauto 10. Qed.

Lemma matches_group_inv i r g c c' :
  matches (Group i r) g c c' → ∃ c1, matches r g c c1 ∧ c' = <[i := g]> c1.
Proof. inversion 1; subst. eauto. Qed.

Lemma matches_rep_inv p lo hi g c c' :
  matches (Rep p lo hi) g c c' →
  c' = c ∧ Forall (fun x => p x = true) g ∧ (lo ≤ length g)%nat
  ∧ (∀ h, hi = Some h → (length g ≤ h)%nat).
Proof. inversion 1; subst. eauto. Qed.

Lemma matches_opt_lit_inv a g c c' : matches (Opt (Lit a)) g c c' → c' = c.
Proof.
  inversion 1 as [| | | | ???? Hlit | | | | |]; subst; [| done]. by inversion Hlit.
Qed.

Lemma matches_litsI w : ∀ g c c', matches (litsI w) g c c' → c' = c ∧ ci_word w g.
Proof.
  induction w as [|a w IH]; intros g c c'; simpl.
  - inversion 1; subst. split; [done | constructor].
  - intros (g1 & g2 & c1 & -> & H1 & H2)%matches_seq_inv.
    inversion H1; subst. destruct (IH _ _ _ H2) as [-> Hw].
    split; [done | by constructor].
Qed.

Lemma matches_altsI ws : ∀ g c c',
  ws ≠ [] → matches (altsI ws) g c c' → c' = c ∧ ∃ w, w ∈ ws ∧ ci_word w g.
Proof.
  induction ws as [|w ws IH]; intros g c c' Hne; [done |].
  destruct ws as [|w' ws].
  - simpl. intros [-> Hw]%matches_litsI. split; [done |].
    exists w. split; [by left | done].
  - change (altsI (w :: w' :: ws)) with (Alt (litsI w) (altsI (w' :: ws))).
    inversion 1 as [| | | | | | | ????? Hl | ????? Hr |]; subst.
    + apply matches_litsI in Hl as [-> Hw]. split; [done |].
      exists w. split; [by left | done].
    + apply IH in Hr as [-> (w0 & Hin & Hw)]; [| done]. split; [done |].
      exists w0. split; [by right | done].
Qed.

Section DatePattern.
Context {U : UnicodeData}.

(** The groups of a match of the date pattern: a month name up to case
    folding, one or two digits, four digits. *)
Lemma date_pattern_groups g m :
  matches date_pattern g ∅ m →
  ∃ w, w ∈ month_list ∧ ci_word w (group m 1)
       ∧ Forall (fun x => is_decimal x = true) (group m 2)
       ∧ (1 ≤ length (group m 2) ≤ 2)%nat
       ∧ Forall (fun x => is_decimal x = true) (group m 3)
       ∧ length (group m 3) = 4%nat.
Proof.
  unfold date_pattern, month_regex.
  intros (mo & g1 & c1 & -> & Hmo & H1)%matches_seq_inv.
  apply matches_group_inv in Hmo as (c0 & Hmo & ->).
  apply matches_altsI in Hmo as [-> (w & Hw & Hci)]; [| done].
  apply matches_seq_inv in H1 as (sp1 & g2 & c2 & -> & Hsp1 & H2).
  apply matches_rep_inv in Hsp1 as (-> & _).
  apply matches_seq_inv in H2 as (d & g3 & c3 & -> & Hd & H3).
  apply matches_group_inv in Hd as (c2' & Hd & ->).
  apply matches_rep_inv in Hd as (-> & Hdd & Hdlo & Hdhi).
  apply matches_seq_inv in H3 as (co & g4 & c4 & -> & Hco & H4).
  apply matches_opt_lit_inv in Hco as ->.
  apply matches_seq_inv in H4 as (sp2 & y & c5 & -> & Hsp2 & Hy).
  apply matches_rep_inv in Hsp2 as (-> & _).
  apply matches_group_inv in Hy as (c6 & Hy & ->).
  apply matches_rep_inv in Hy as (-> & Hyd & Hylo & Hyhi).
  specialize (Hdhi _ eq_refl). specialize (Hyhi _ eq_refl).
  exists w. unfold group, captures in *.
  rewrite !lookup_insert. simpl.
  repeat split; try done; lia.
Qed.
End DatePattern.

(** ** Case folding and [capitalize] on month names *)

Lemma ignorecase_month_char a x :
  is_ascii_letter a = true → ascii_fold a ≠ 107 →
  ignorecase_eq a x = true → month_char x = true.
Proof.
  intros Ha Hk Hax.
  destruct (month_char x) eqn:Hx; [done |]. exfalso. char_arith.
Qed.

Lemma ignorecase_title a x :
  is_ascii_upper a = true → is_ascii_letter x = true →
  ignorecase_eq a x = true → title_char x = [a].
Proof. intros Ha Hx Hax. char_arith. Qed.

Lemma ignorecase_lower a x :
  is_ascii_lower a = true → is_ascii_letter x = true →
  ignorecase_eq a x = true → lower_char x = [a].
Proof. intros Ha Hx Hax. char_arith. Qed.

Lemma capitalize_ci_word w g :
  capitalized w = true → ci_word w g → forallb is_ascii_letter g = true →
  capitalize g = w.
Proof.
  destruct w as [|a w]; [done |]. simpl.
  intros [Ha Hw]%andb_true_iff Hci Hg.
  inversion Hci as [| ? x ? rest Hax Hrest]; subst. simpl in *.
  apply andb_true_iff in Hg as [Hx Hg].
  rewrite (ignorecase_title a x) by done. simpl. f_equal.
  clear -Hw Hrest Hg. induction Hrest as [| b y w rest Hby Hrest IH]; [done |].
  simpl in *. apply andb_true_iff in Hw as [Hb Hw].
  apply andb_true_iff in Hg as [Hy Hg].
  rewrite (ignorecase_lower b y) by done. simpl. f_equal. by apply IH.
Qed.

Lemma ignorecase_title_upper a x :
  is_ascii_upper a = true → ignorecase_eq a x = true →
  forallb is_ascii_upper (title_char x) = true → title_char x = [a].
Proof.
  intros Ha Hax Hup. unfold title_char in *.
  repeat case_match; cbn [forallb] in Hup; rewrite andb_true_r in Hup;
    char_arith.
Qed.

Lemma ignorecase_lower_lower b y :
  is_ascii_lower b = true → ignorecase_eq b y = true →
  forallb is_ascii_lower (lower_char y) = true → lower_char y = [b].
Proof.
  intros Hb Hby Hlo. unfold lower_char in *.
  repeat case_match; cbn [forallb] in Hlo; rewrite ?andb_true_r in Hlo;
    char_arith.
Qed.

(** [capitalize] gives a capitalised ASCII word only if it gives the
    month name the spelling stands for. *)
Lemma capitalize_back w g :
  capitalized w = true → ci_word w g → capitalized (capitalize g) = true →
  capitalize g = w.
Proof.
  destruct w as [|a w]; [done |]. simpl.
  intros [Ha Hw]%andb_true_iff Hci.
  inversion Hci as [| ? x ? rest Hax Hrest]; subst. unfold capitalize.
  intros Hcap.
  assert (forallb is_ascii_upper (title_char x) = true
          ∧ forallb is_ascii_lower (concat (lower_char <$> rest)) = true)
    as [Hx Hg].
  { unfold title_char in *.
    repeat case_match; cbn [capitalized app] in Hcap;
      apply andb_true_iff in Hcap as [Hc1 Hc2]; cbn [forallb];
      by rewrite andb_true_r. }
  rewrite (ignorecase_title_upper a x) by done. simpl. f_equal.
  clear -Hw Hrest Hg. induction Hrest as [| b y w rest Hby Hrest IH]; [done |].
  simpl in *. apply andb_true_iff in Hw as [Hb Hw].
  rewrite forallb_app in Hg. apply andb_true_iff in Hg as [Hy Hg].
  rewrite (ignorecase_lower_lower b y) by done. simpl. f_equal. by apply IH.
Qed.

Lemma month_list_capitalized w : w ∈ month_list → capitalized w = true.
Proof.
  intros Hw. assert (Forall (fun w => capitalized w = true) month_list) as Hall.
  { vm_compute. repeat constructor. }
  by eapply Forall_forall in Hall.
Qed.

Lemma month_list_letters w :
  w ∈ month_list →
  Forall (fun a => is_ascii_letter a = true ∧ ascii_fold a ≠ 107) w.
Proof.
  intros Hw.
  assert (Forall (fun w => forallb (fun a => is_ascii_letter a
                                             && negb (ascii_fold a =? 107)) w = true)
            month_list) as Hall.
  { vm_compute. repeat constructor. }
  eapply Forall_forall in Hall; [| exact Hw].
  apply Forall_forall. intros a Ha.
  rewrite forallb_forall in Hall. specialize (Hall a).
  rewrite <- list_elem_of_In in Hall. specialize (Hall Ha).
  apply andb_true_iff in Hall as [? Hk]. split; [done |].
  by apply negb_true_iff, N.eqb_neq in Hk.
Qed.

(** Group 1 of a date match consists of ASCII letters and of U+0130,
    U+0131 and U+017F, the code points on which [capitalize] is modelled. *)
Lemma month_group_alphabet w g :
  w ∈ month_list → ci_word w g → Forall (fun x => month_char x = true) g.
Proof.
  intros Hw Hci. pose proof (month_list_letters w Hw) as Hall. clear Hw.
  induction Hci as [| a x w' g' Hax Hci IH]; [constructor |].
  inversion Hall as [| ?? [Ha Hk] Hall']; subst.
  constructor; [by apply (ignorecase_month_char a) | by apply IH].
Qed.

(** The dictionary has the month names of the pattern as its keys. *)
Lemma month_num_lookup k w :
  month_list !! k = Some w → month_num !! w = Some (two_digits (S k)).
Proof.
  intros Hk.
  do 12 (destruct k as [|k]; [injection Hk as <-; by vm_compute |]).
  done.
Qed.

Lemma month_num_key key v : month_num !! key = Some v → key ∈ month_list.
Proof.
  intros Hv. apply elem_of_list_to_map_2 in Hv. vm_compute in Hv.
  repeat (apply elem_of_cons in Hv as [[= -> ->] | Hv];
          [vm_compute; set_solver |]).
  by apply elem_of_nil in Hv.
Qed.

Section DateFacts.
Context {U : UnicodeData}.

Lemma first_date_app pre rest :
  Forall (fun t => search date_pattern t = None) pre →
  first_date (pre ++ rest) = first_date rest.
Proof.
  induction 1 as [| t pre Ht Hpre IH]; [done |]. simpl. by rewrite Ht.
Qed.

Lemma first_date_none txts :
  Forall (fun t => search date_pattern t = None) txts → first_date txts = Ok [].
Proof.
  intros Hall. rewrite <- (app_nil_r txts). by rewrite first_date_app.
Qed.

(** What a match gives: the month's number, the day padded to two and the
    year, eight characters, when [capitalize] turns the month as spelt into
    the month name it stands for, and KeyError otherwise. *)
Lemma date_of_match_cases txt m :
  search date_pattern txt = Some m →
  ∃ k w, month_list !! k = Some w ∧ ci_word w (group m 1)
    ∧ (1 ≤ length (group m 2) ≤ 2)%nat ∧ length (group m 3) = 4%nat
    ∧ length (two_digits (S k) ++ zfill 2 (group m 2) ++ group m 3) = 8%nat
    ∧ date_of_match m
      = (if bool_decide (capitalize (group m 1) = w)
         then Ok (two_digits (S k) ++ zfill 2 (group m 2) ++ group m 3)
         else Raise KeyError)
    ∧ (forallb is_ascii_letter (group m 1) = true → capitalize (group m 1) = w).
Proof.
  intros (before & g & rest & _ & Hm)%search_sound.
  apply date_pattern_groups in Hm as (w & Hw & Hci & _ & Hd & _ & Hy).
  destruct (list_elem_of_lookup_1 _ _ Hw) as [k Hk].
  pose proof (month_list_capitalized w Hw) as Hcapw.
  exists k, w. split; [done |]. split; [done |]. split; [lia |].
  split; [done |]. split; [| split].
  - assert (length (two_digits (S k)) = 2%nat) as Hmm.
    { apply lookup_lt_Some in Hk. change (length month_list) with 12%nat in Hk.
      do 12 (destruct k as [|k]; [done |]). lia. }
    rewrite !length_app, Hmm, Hy, length_zfill by lia. done.
  - unfold date_of_match. case_bool_decide as Hcap.
    + by rewrite Hcap, (month_num_lookup k).
    + destruct (month_num !! capitalize (group m 1)) as [v|] eqn:Hv; [| done].
      exfalso. apply Hcap. apply capitalize_back; try done.
      by apply month_list_capitalized, (month_num_key _ v).
  - intros Hascii. by apply capitalize_ci_word.
Qed.
End DateFacts.

(** ** The date extractor *)

(** C5. The candidate fragments are tried in order and the first one that
    matches the date pattern decides the result, whatever comes after it.
    The month of that match spells, up to the case folding of the pattern,
    one of the twelve month names, and the result is that month's
    two-digit number, the day padded to two characters and the year, eight
    characters in all, exactly when [capitalize] turns the spelling into
    the name, as it does for every spelling in ASCII letters; otherwise
    the lookup raises KeyError.  A page whose title reads "City Council
    Meeting - May 1, 2023", or the same in capitals or in small letters,
    no fragment before the title holding a date, gives "05012023".  A page
    whose first candidate spells August with U+017F for the s ends in KeyError,
    whatever candidates follow: the first matching fragment wins and its
    month is not mapped. *)
Theorem first_matching_fragment_wins {U : UnicodeData} {P : HtmlParser}
    (page_html : str) :
  (∀ pre txt post m,
     possible_texts (BeautifulSoup page_html) = pre ++ txt :: post →
     Forall (fun t => search date_pattern t = None) pre →
     search date_pattern txt = Some m →
     ∃ k w, month_list !! k = Some w ∧ ci_word w (group m 1)
       ∧ (1 ≤ length (group m 2) ≤ 2)%nat ∧ length (group m 3) = 4%nat
       ∧ length (two_digits (S k) ++ zfill 2 (group m 2) ++ group m 3) = 8%nat
       ∧ parse_meeting_date page_html
         = (if bool_decide (capitalize (group m 1) = w)
            then Ok (two_digits (S k) ++ zfill 2 (group m 2) ++ group m 3)
            else Raise KeyError)
       ∧ (forallb is_ascii_letter (group m 1) = true →
          capitalize (group m 1) = w))
  ∧ (∀ t, t ∈ [may_1_title; may_1_upper; may_1_lower] →
     title (BeautifulSoup page_html) = Some (Some t) →
     Forall (fun t => search (date_pattern (U := basic_latin)) t = None)
       (filter (fun t => t ≠ []) (block_texts (BeautifulSoup page_html))) →
     parse_meeting_date (U := basic_latin) page_html = Ok (cp "05012023"))
  ∧ (∀ post,
     possible_texts (BeautifulSoup page_html) = long_s_august :: post →
     parse_meeting_date (U := basic_latin) page_html = Raise KeyError).
Proof.
  split; [| split].
  - intros pre txt post m Htexts Hpre Hm.
    assert (parse_meeting_date page_html = date_of_match m) as ->.
    { unfold parse_meeting_date. rewrite Htexts, first_date_app by done.
      simpl. by rewrite Hm. }
    by eapply date_of_match_cases.
  - intros t Ht Htitle Hblocks. unfold parse_meeting_date, possible_texts.
    rewrite Htitle, first_date_app by done.
    repeat (apply elem_of_cons in Ht as [-> | Ht]; [by vm_compute |]).
    by apply elem_of_nil in Ht.
  - intros post Htexts. unfold parse_meeting_date. rewrite Htexts.
    by vm_compute.
Qed.

Lemma first_matching_fragment_wins_witness :
  parse_meeting_date (U := basic_latin) (P := canned may_1_page) []
    = Ok (cp "05012023")
  ∧ parse_meeting_date (U := basic_latin) (P := canned long_s_heading_page) []
    = Raise KeyError.
Proof.
  split.
  - apply (proj1 (proj2 (first_matching_fragment_wins (U := basic_latin)
                           (P := canned may_1_page) [])) may_1_title).
    + vm_compute. set_solver.
    + reflexivity.
    + repeat constructor.
  - apply (proj2 (proj2 (first_matching_fragment_wins (U := basic_latin)
                           (P := canned long_s_heading_page) []))
             [may_1_title]).
    reflexivity.
Defined.

(** C10. The lookup is not total. Under [re.IGNORECASE] the letter [s] of
    the pattern also matches U+017F, so the fragment below matches the date
    pattern with group 1 spelt with that character; [capitalize] leaves it
    in place, the result is no key of the month dictionary, and
    [parse_meeting_date] raises [KeyError], which nothing in [scrape_year]
    catches. *)
Theorem month_lookup_raises_on_long_s :
  (fun m => group m 1) <$> search (date_pattern (U := basic_latin)) long_s_august
    = Some (cp "Augu" ++ [383] ++ cp "t")
  ∧ capitalize (cp "Augu" ++ [383] ++ cp "t") = cp "Augu" ++ [383] ++ cp "t"
  ∧ month_num !! (cp "Augu" ++ [383] ++ cp "t") = None
  ∧ parse_meeting_date (U := basic_latin) (P := canned long_s_page) []
    = Raise KeyError
  ∧ (∀ (Net : Network) year year_dir meeting_id w,
       http_get (length (trace w)) (meeting_url year meeting_id) = Some [] →
       (process_meeting (U := basic_latin) (P := canned long_s_page)
          year year_dir meeting_id w).1 = Raise KeyError).
Proof.
  repeat split; try by vm_compute.
  intros Net year year_dir meeting_id w Hget.
  unfold process_meeting, bind, try_except, fetch. by rewrite Hget.
Qed.

(** ** Pages without a date *)

(** C6. When no candidate fragment of a meeting page matches the date
    pattern, [parse_meeting_date] returns the empty string (it does not
    raise), the orchestrator names the meeting id<meeting_id>, and every
    filename it builds for the meeting begins with id<meeting_id>_; for
    meeting 777 that is id777_. *)
Theorem no_date_falls_back_to_meeting_id {U : UnicodeData} {P : HtmlParser}
    {Net : Network} (meeting_html : str) (year meeting_id : N) (year_dir : str)
    (w : World) :
  Forall (fun t => search date_pattern t = None)
    (possible_texts (BeautifulSoup meeting_html)) →
  let fallback := cp "id" ++ str_of_int meeting_id in
  parse_meeting_date meeting_html = Ok []
  ∧ meeting_date_str meeting_id meeting_html w = (Ok fallback, w)
  ∧ (http_get (length (trace w)) (meeting_url year meeting_id) = Some meeting_html →
     process_meeting year year_dir meeting_id w
     = for_each (extract_file_links meeting_html) (process_file year_dir fallback)
         {| files := files w;
            trace := trace w ++ [Get (meeting_url year meeting_id)] |})
  ∧ (∀ ftype url, ∃ rest,
       build_filename fallback ftype url = (fallback ++ cp "_") ++ rest)
  ∧ (meeting_id = 777 →
     ∀ ftype url, startswith (build_filename fallback ftype url) (cp "id777_") = true).
Proof.
  intros Hnone fallback.
  assert (parse_meeting_date meeting_html = Ok []) as Hparse.
  { unfold parse_meeting_date. by apply first_date_none. }
  assert (meeting_date_str meeting_id meeting_html w = (Ok fallback, w)) as Hstr.
  { unfold meeting_date_str, bind, lift. by rewrite Hparse. }
  repeat split; try done.
  - intros Hget. unfold process_meeting, bind at 1, try_except, bind at 1, fetch.
    rewrite Hget. simpl. unfold bind at 1.
    unfold meeting_date_str, bind at 1, lift. by rewrite Hparse.
  - intros ftype url. unfold build_filename.
    eexists. by rewrite <- (assoc_L (++)).
  - intros -> ftype url. apply startswith_spec. unfold build_filename.
    eexists. subst fallback.
    change (cp "id" ++ str_of_int 777) with (cp "id777").
    change (cp "id777_") with (cp "id777" ++ cp "_").
    by rewrite <- !(assoc_L (++)).
Qed.

Lemma no_date_falls_back_to_meeting_id_witness :
  parse_meeting_date (U := basic_latin) (P := canned undated_page) [] = Ok []
  ∧ startswith
      (build_filename (cp "id" ++ str_of_int 777) (cp "agenda")
         (cp "https://www.joplinmo.org/AgendaCenter/ViewFile/Agenda/_777"))
      (cp "id777_") = true.
Proof.
  destruct (no_date_falls_back_to_meeting_id (U := basic_latin)
              (P := canned undated_page) (Net := site_down) [] 2023 777
              (cp "joplin_council_pdfs/2023") empty_world)
    as (Hparse & _ & _ & _ & Hname).
  - vm_compute. repeat constructor.
  - split; [exact Hparse |]. by apply Hname.
Defined.

(** * Further properties of the program *)

(** ** absolute_url *)

Lemma absolute_url_http (href : str) :
  startswith (absolute_url href) (cp "http") = true.
Proof.
  unfold absolute_url. destruct (startswith href (cp "http")) eqn:Hh; [done |].
  apply startswith_spec. by eexists.
Qed.

(** X1. [absolute_url] always returns a URL that starts with "http"; it
    leaves its own results unchanged; and a relative href gives the same
    URL with or without its leading slash. *)
Theorem absolute_url_normalises (href : str) :
  startswith (absolute_url href) (cp "http") = true
  ∧ absolute_url (absolute_url href) = absolute_url href
  ∧ (startswith href (cp "http") = false → startswith href (cp "/") = false →
     absolute_url (cp "/" ++ href) = absolute_url href).
Proof.
  pose proof (absolute_url_http href) as Habs.
  split; [done |]. split.
  - unfold absolute_url at 1. by rewrite Habs.
  - intros Hh Hs. unfold absolute_url. rewrite Hh, Hs.
    by change (startswith (cp "/" ++ href) (cp "http")) with false.
Qed.

Lemma absolute_url_normalises_witness :
  absolute_url (cp "/" ++ slashed_and_bare.2) = absolute_url slashed_and_bare.2.
Proof.
  apply (absolute_url_normalises slashed_and_bare.2); reflexivity.
Defined.

(** ** The entries of extract_file_links *)

Lemma direct_type_tag (lurl : str) : direct_type lurl ∈ TYPE_TAGS.
Proof.
  unfold direct_type, TYPE_TAGS. repeat case_match; simpl; set_solver.
Qed.

Lemma link_entry_Some {U : UnicodeData} (href url ftype : str) :
  link_entry href = Some (url, ftype) →
  url = absolute_url href ∧ ftype ∈ TYPE_TAGS
  ∧ (ftype = cp "other" → endswith_any (str_lower url) EXTENSIONS = true).
Proof.
  unfold link_entry, link_entry_with, viewfile_entry.
  destruct (endswith_any _ _) eqn:Hext.
  - intros [= <- <-]. split; [done |]. split; [apply direct_type_tag | done].
  - unfold TYPE_TAGS. repeat case_match; intros [= <- <-];
      (split; [done |]); (split; [simpl; set_solver | done]).
Qed.

(** X2. Every pair that [extract_file_links] returns is the absolute URL
    of one of the page's anchors, so it starts with "http", together with
    one of the four type tags; the tag "other" is only given to URLs that
    end with a recognised document extension. *)
Theorem extract_file_links_entries {U : UnicodeData} {P : HtmlParser}
    (page_html url ftype : str) :
  (url, ftype) ∈ extract_file_links page_html →
  (∃ href, href ∈ anchors (BeautifulSoup page_html) ∧ url = absolute_url href)
  ∧ startswith url (cp "http") = true
  ∧ ftype ∈ TYPE_TAGS
  ∧ (ftype = cp "other" → endswith_any (str_lower url) EXTENSIONS = true).
Proof.
  intros Hin. unfold extract_file_links in Hin.
  apply (proj1 (proj1 (proj2 (dedup_first_seen_order _)) _)) in Hin.
  rewrite collect_files_omap in Hin.
  apply list_elem_of_omap in Hin as (href & Hhref & Hentry).
  apply link_entry_Some in Hentry as (-> & Htag & Hother).
  split; [by exists href |]. split; [apply absolute_url_http | done].
Qed.

Lemma extract_file_links_entries_witness :
  (∃ href, href ∈ anchors two_file_page
           ∧ cp "https://www.joplinmo.org/DocumentCenter/View/77/Budget.XLSX"
             = absolute_url href)
  ∧ startswith (cp "https://www.joplinmo.org/DocumentCenter/View/77/Budget.XLSX")
      (cp "http") = true
  ∧ cp "other" ∈ TYPE_TAGS
  ∧ (cp "other" = cp "other" →
     endswith_any
       (@str_lower basic_latin
          (cp "https://www.joplinmo.org/DocumentCenter/View/77/Budget.XLSX"))
       EXTENSIONS = true).
Proof.
  apply (extract_file_links_entries (U := basic_latin) (P := canned two_file_page) []).
  vm_compute. right. left.
Defined.

(** ** The meeting id of an anchor *)

Lemma take_drop_while p s : take_while p s ++ drop_while p s = s.
Proof.
  induction s as [|x s IH]; [done |]. simpl.
  destruct (p x); [simpl; by rewrite IH | done].
Qed.

Lemma take_while_Forall p s : Forall (fun x => p x = true) (take_while p s).
Proof.
  induction s as [|x s IH]; [constructor |]. simpl.
  destruct (p x) eqn:Hx; by constructor.
Qed.

Lemma drop_while_head p s c : head (drop_while p s) = Some c → p c = false.
Proof.
  induction s as [|x s IH]; [done |]. simpl.
  destruct (p x) eqn:Hx; [done |]. by intros [= <-].
Qed.

(** A run of [p] followed by something outside [p] is the longest run. *)
Lemma take_while_app p ds rest :
  Forall (fun x => p x = true) ds →
  (∀ c, head rest = Some c → p c = false) →
  take_while p (ds ++ rest) = ds ∧ drop_while p (ds ++ rest) = rest.
Proof.
  intros Hds Hrest. induction Hds as [|x ds Hx Hds IH]; simpl.
  - destruct rest as [|c rest]; [done |]. simpl.
    by rewrite (Hrest c eq_refl).
  - rewrite Hx. destruct IH as [-> ->]. done.
Qed.

(** With a continuation that accepts whatever is left, a greedy
    unbounded repetition stops after the longest run. *)
Lemma rep_greedy {T} p (k : str → option T) (s : str) : ∀ lo,
  (∀ s', is_Some (k s')) →
  rep p lo None s k
  = if decide (lo ≤ length (take_while p s))%nat then k (drop_while p s) else None.
Proof.
  intros lo Hk. revert lo. induction s as [|x s IH]; intros lo; simpl.
  - destruct lo; [done |]. rewrite decide_False by lia. done.
  - destruct (p x) eqn:Hx; simpl.
    + rewrite IH. destruct (decide (pred lo ≤ length (take_while p s))%nat).
      * rewrite decide_True by lia. destruct (Hk (drop_while p s)) as [t ->]. done.
      * rewrite decide_False by lia. destruct lo; [lia | done].
    + destruct lo; [done |]. rewrite decide_False by lia. done.
Qed.

Lemma exec_lits {T} w : ∀ s c (k : str → captures → option T),
  exec (lits w) s c k = if startswith s w then k (drop (length w) s) c else None.
Proof.
  induction w as [|a w IH]; intros s c k; simpl; [done |].
  destruct s as [|x s]; [done |].
  rewrite (N.eqb_sym a x). destruct (x =? a); [apply IH | done].
Qed.

Section MeetingIdFacts.
Context {U : UnicodeData}.

(** What an anchored match of the pattern is: the literal path, then the
    longest run of digits, which must not be empty. *)
Lemma match_here_meeting_id (s : str) :
  match_here meeting_id_pattern s
  = if startswith s MEETING_PATH then
      let ds := take_while is_decimal (drop (length MEETING_PATH) s) in
      if decide (1 ≤ length ds)%nat then Some (<[1%nat := ds]> ∅) else None
    else None.
Proof.
  unfold match_here, meeting_id_pattern. cbn [exec].
  rewrite exec_lits. fold MEETING_PATH.
  destruct (startswith s MEETING_PATH); [| done].
  set (s1 := drop (length MEETING_PATH) s). cbn [exec].
  rewrite rep_greedy by eauto. cbn zeta.
  destruct (decide (1 ≤ length (take_while is_decimal s1))%nat); [| done].
  do 2 f_equal.
  rewrite <- (take_drop_while is_decimal s1) at 1 3.
  by rewrite length_app, Nat.add_sub, take_app_length.
Qed.

Lemma search_meeting_id_Some (s : str) m :
  search meeting_id_pattern s = Some m →
  ∃ pre ds rest, s = pre ++ MEETING_PATH ++ ds ++ rest ∧ ds ≠ []
    ∧ Forall (fun x => is_decimal x = true) ds
    ∧ (∀ c, head rest = Some c → is_decimal c = false)
    ∧ group m 1 = ds.
Proof.
  assert (∀ s, match_here meeting_id_pattern s = Some m →
            ∃ ds rest, s = MEETING_PATH ++ ds ++ rest ∧ ds ≠ []
              ∧ Forall (fun x => is_decimal x = true) ds
              ∧ (∀ c, head rest = Some c → is_decimal c = false)
              ∧ group m 1 = ds) as Hhere.
  { intros s0. rewrite match_here_meeting_id.
    destruct (startswith s0 MEETING_PATH) eqn:Hs; [| done].
    apply startswith_spec in Hs as [s1 ->]. rewrite drop_app_length. cbn zeta.
    destruct (decide _) as [Hlen |]; [| done]. intros [= <-].
    exists (take_while is_decimal s1), (drop_while is_decimal s1).
    rewrite take_drop_while. repeat split.
    - intros Hnil. rewrite Hnil in Hlen. simpl in Hlen. lia.
    - apply take_while_Forall.
    - apply drop_while_head. }
  induction s as [|x s IH]; cbn [search].
  - destruct (match_here meeting_id_pattern []) eqn:Hm; [| done]. intros [= ->].
    destruct (Hhere _ Hm) as (ds & rest & ? & ?). by exists [], ds, rest.
  - destruct (match_here meeting_id_pattern (x :: s)) eqn:Hm.
    + intros [= ->]. destruct (Hhere _ Hm) as (ds & rest & ? & ?).
      by exists [], ds, rest.
    + intros Hs. destruct (IH Hs) as (pre & ds & rest & -> & ?).
      by exists (x :: pre), ds, rest.
Qed.

Lemma search_meeting_id_leftmost (pre ds rest : str) :
  (∀ i, (i < length pre)%nat →
        startswith (drop i (pre ++ MEETING_PATH ++ ds ++ rest)) MEETING_PATH = false) →
  ds ≠ [] → Forall (fun x => is_decimal x = true) ds →
  (∀ c, head rest = Some c → is_decimal c = false) →
  search meeting_id_pattern (pre ++ MEETING_PATH ++ ds ++ rest)
  = Some (<[1%nat := ds]> ∅).
Proof.
  intros Hpre Hne Hds Hrest. induction pre as [|x pre IH].
  - assert (match_here meeting_id_pattern (MEETING_PATH ++ ds ++ rest)
            = Some (<[1%nat := ds]> ∅)) as Hm.
    { rewrite match_here_meeting_id.
      rewrite (proj2 (startswith_spec _ _)) by eauto.
      rewrite drop_app_length. cbn zeta.
      destruct (take_while_app is_decimal ds rest Hds Hrest) as [-> _].
      rewrite decide_True; [done |]. destruct ds; [done | simpl; lia]. }
    rewrite app_nil_l. destruct (MEETING_PATH ++ ds ++ rest); cbn [search]; by rewrite Hm.
  - change ((x :: pre) ++ MEETING_PATH ++ ds ++ rest)
      with (x :: (pre ++ MEETING_PATH ++ ds ++ rest)) in *.
    cbn [search]. rewrite match_here_meeting_id.
    assert (H0 := Hpre 0%nat ltac:(simpl; lia)). rewrite drop_0 in H0.
    rewrite H0. apply IH.
    intros i Hi. apply (Hpre (S i)). simpl. lia.
Qed.
End MeetingIdFacts.

Lemma href_meeting_id_shape {U : UnicodeData} (href : str) n :
  href_meeting_id href = Some n →
  ∃ pre ds rest, href = pre ++ MEETING_PATH ++ ds ++ rest ∧ ds ≠ []
    ∧ Forall (fun x => is_decimal x = true) ds
    ∧ (∀ c, head rest = Some c → is_decimal c = false)
    ∧ n = int_of_digits ds.
Proof.
  unfold href_meeting_id.
  destruct (search meeting_id_pattern href) as [m|] eqn:Hm; [| done].
  intros [= <-].
  apply search_meeting_id_Some in Hm as (pre & ds & rest & ? & ? & ? & ? & ->).
  by exists pre, ds, rest.
Qed.

Lemma href_meeting_id_absent {U : UnicodeData} (href : str) :
  contains href MEETING_PATH = false → href_meeting_id href = None.
Proof.
  intros Hnot. destruct (href_meeting_id href) as [n|] eqn:Hn; [| done].
  destruct (href_meeting_id_shape href n Hn) as (pre & ds & rest & -> & _).
  assert (contains (pre ++ MEETING_PATH ++ ds ++ rest) MEETING_PATH = true) as Hc.
  { apply contains_spec. by exists pre, (ds ++ rest). }
  congruence.
Qed.

(** X3. An anchor gives a meeting id only if its target contains
    /AgendaCenter/26/ followed by a digit, and the id is then the value of
    the whole run of digits found there (the run ends the target or is
    followed by a non-digit); a target without /AgendaCenter/26/ gives
    none. *)
Theorem href_meeting_id_sound {U : UnicodeData} (href : str) :
  (∀ n, href_meeting_id href = Some n →
     ∃ pre ds rest, href = pre ++ MEETING_PATH ++ ds ++ rest ∧ ds ≠ []
       ∧ Forall (fun x => is_decimal x = true) ds
       ∧ (∀ c, head rest = Some c → is_decimal c = false)
       ∧ n = int_of_digits ds)
  ∧ (contains href MEETING_PATH = false → href_meeting_id href = None).
Proof.
  split; [intros n; apply href_meeting_id_shape | apply href_meeting_id_absent].
Qed.

Lemma href_meeting_id_sound_witness :
  href_meeting_id (U := basic_latin) nested_listing_href = None.
Proof.
  apply (href_meeting_id_sound (U := basic_latin) nested_listing_href).
  vm_compute. reflexivity.
Defined.

(** X4. When /AgendaCenter/26/ first occurs in an anchor's target right
    before a run of digits, the loop of [extract_meeting_ids] hands exactly
    that run to [int()], whatever follows it: it goes on with the value of
    the run appended if the run is within the limit of [int()], and ends
    in ValueError otherwise. *)
Theorem href_meeting_id_first_run {U : UnicodeData} (pre ds rest : str)
    (ids : list N) (hrefs : list str) :
  (∀ i, (i < length pre)%nat →
        startswith (drop i (pre ++ MEETING_PATH ++ ds ++ rest)) MEETING_PATH = false) →
  ds ≠ [] → Forall (fun x => is_decimal x = true) ds →
  (∀ c, head rest = Some c → is_decimal c = false) →
  collect_ids_from ids ((pre ++ MEETING_PATH ++ ds ++ rest) :: hrefs)
  = if within_int_limit ds then collect_ids_from (ids ++ [int_of_digits ds]) hrefs
    else Raise ValueError.
Proof.
  intros Hpre Hne Hds Hrest. cbn [collect_ids_from].
  rewrite search_meeting_id_leftmost by done.
  unfold py_int, group, captures. rewrite lookup_insert_eq. simpl.
  by destruct (within_int_limit ds).
Qed.

Lemma href_meeting_id_first_run_witness :
  collect_ids_from (U := basic_latin) []
    [meeting_501_parts.1.1 ++ MEETING_PATH ++ meeting_501_parts.1.2
     ++ meeting_501_parts.2]
  = Ok [501].
Proof.
  etrans; [apply (href_meeting_id_first_run (U := basic_latin)
                    meeting_501_parts.1.1 meeting_501_parts.1.2
                    meeting_501_parts.2 [] []) | reflexivity].
  - intros i Hi. vm_compute in Hi.
    do 24 (destruct i as [|i]; [reflexivity |]). lia.
  - discriminate.
  - vm_compute. repeat constructor.
  - intros c [= <-]. reflexivity.
Defined.

(** ** Completeness of the matcher *)

Lemma rep_complete {T} p g : ∀ lo hi rest (k : str → option T),
  Forall (fun x => p x = true) g → (lo ≤ length g)%nat →
  (∀ h, hi = Some h → (length g ≤ h)%nat) →
  is_Some (k rest) → is_Some (rep p lo hi (g ++ rest) k).
Proof.
  induction g as [|x g IH]; intros lo hi rest k Hall Hlo Hhi Hk.
  - simpl in *. assert (lo = 0%nat) as -> by lia.
    destruct rest as [|y rest]; simpl; [done |].
    destruct (p y && more_allowed hi); [| done].
    by destruct (rep p _ _ rest k).
  - inversion Hall as [| ?? Hx Hg]; subst. simpl in *.
    assert (more_allowed hi = true) as ->.
    { destruct hi as [[|h]|]; try done. specialize (Hhi 0%nat eq_refl). lia. }
    rewrite Hx. simpl.
    destruct (IH (pred lo) (pred <$> hi) rest k) as [t ->]; try done; [lia |].
    intros h Hh. destruct hi as [h'|]; [| done]. injection Hh as <-.
    specialize (Hhi h' eq_refl). lia.
Qed.

Lemma exec_complete {T} r g c c' :
  matches r g c c' →
  ∀ rest (k : str → captures → option T),
    is_Some (k rest c') → is_Some (exec r (g ++ rest) c k).
Proof.
  induction 1 as [c | a c | a x c Hax | p lo hi g c Hall Hlo Hhi
                  | r g c c' Hm IH | r c
                  | r1 r2 g1 g2 c c1 c2 Hm1 IH1 Hm2 IH2
                  | r1 r2 g c c' Hm IH | r1 r2 g c c' Hm IH
                  | i r g c c' Hm IH]; intros rest k Hk; simpl.
  - done.
  - by rewrite N.eqb_refl.
  - by rewrite Hax.
  - by apply rep_complete.
  - by destruct (IH rest k Hk) as [t ->].
  - by destruct (exec r rest c k).
  - rewrite <- (assoc_L (++)). apply IH1. by apply IH2.
  - by destruct (IH rest k Hk) as [t ->].
  - destruct (exec r1 (g ++ rest) c k); [done |]. by apply IH.
  - apply IH. by rewrite length_app, Nat.add_sub, take_app_length.
Qed.

(** A text that contains a match is matched somewhere. *)
Lemma search_complete r before g rest m :
  matches r g ∅ m → is_Some (search r (before ++ g ++ rest)).
Proof.
  intros Hm.
  assert (is_Some (match_here r (g ++ rest))) as [c Hc].
  { unfold match_here. by apply (exec_complete r g ∅ m). }
  induction before as [|x before IH].
  - rewrite app_nil_l. destruct (g ++ rest); cbn [search]; by rewrite Hc.
  - change ((x :: before) ++ g ++ rest) with (x :: (before ++ g ++ rest)).
    cbn [search]. destruct (match_here r (x :: _)); [eauto | done].
Qed.

Lemma matches_litsI_intro w g c : ci_word w g → matches (litsI w) g c c.
Proof.
  induction 1 as [| a x w g Hax Hw IH]; simpl; [constructor |].
  change (x :: g) with ([x] ++ g). econstructor; [by constructor | done].
Qed.

Lemma matches_altsI_intro ws w g c :
  w ∈ ws → ci_word w g → matches (altsI ws) g c c.
Proof.
  intros Hin Hw. induction ws as [|w0 ws IH]; [by apply elem_of_nil in Hin |].
  destruct ws as [|w1 ws].
  - apply list_elem_of_singleton in Hin as ->. by apply matches_litsI_intro.
  - change (altsI (w0 :: w1 :: ws)) with (Alt (litsI w0) (altsI (w1 :: ws))).
    apply elem_of_cons in Hin as [-> | Hin].
    + apply matches_alt_l. by apply matches_litsI_intro.
    + apply matches_alt_r. by apply IH.
Qed.

Lemma spells_date_matches {U : UnicodeData} g :
  spells_date g → ∃ m, matches date_pattern g ∅ m.
Proof.
  intros (w & mo & sp1 & d & comma & sp2 & y & Hw & Hmo & Hsp1 & Hs1 & Hd & Hdl
          & Hcomma & Hsp2 & Hs2 & Hy & Hyl & ->).
  eexists. unfold date_pattern, month_regex.
  repeat (eapply matches_seq).
  - apply matches_group. by eapply matches_altsI_intro.
  - apply matches_rep; [done | destruct sp1; [done | simpl; lia] | done].
  - apply matches_group. apply matches_rep; [done | lia |].
    intros h [= <-]. lia.
  - destruct Hcomma as [-> | ->];
      [apply matches_opt_none | apply matches_opt_some, matches_lit].
  - apply matches_rep; [done | destruct sp2; [done | simpl; lia] | done].
  - apply matches_group. apply matches_rep; [done | lia |].
    intros h [= <-]. lia.
Qed.

(** ** The results of parse_meeting_date *)

Lemma month_num_values key v :
  month_num !! key = Some v → length v = 2%nat ∧ v ∈ MONTH_NUMBERS.
Proof.
  intros Hv. apply elem_of_list_to_map_2 in Hv. vm_compute in Hv.
  repeat (apply elem_of_cons in Hv as [[= -> ->] | Hv];
          [split; [reflexivity | vm_compute; set_solver] |]).
  by apply elem_of_nil in Hv.
Qed.

Section DateResults.
Context {U : UnicodeData}.

Lemma date_of_match_Ok txt m r :
  search date_pattern txt = Some m → date_of_match m = Ok r →
  length r = 8%nat ∧ take 2 r ∈ MONTH_NUMBERS
  ∧ Forall (fun x => x = 48 ∨ is_decimal x = true) (drop 2 r).
Proof.
  intros (before & g & rest & _ & Hm)%search_sound.
  apply date_pattern_groups in Hm as (w & _ & _ & Hdd & Hd & Hyd & Hy).
  unfold date_of_match.
  destruct (month_num !! capitalize (group m 1)) as [v|] eqn:Hv; [| done].
  intros [= <-]. apply month_num_values in Hv as [Hlen Hv].
  rewrite !length_app, Hlen, Hy, length_zfill by lia.
  split; [done |]. split.
  - by rewrite take_app_length' by done.
  - rewrite drop_app_length' by done. apply Forall_app. split.
    + unfold zfill. destruct (group m 2) as [|c d]; [apply Forall_replicate; by left |].
      inversion Hdd; subst.
      destruct ((c =? 43) || (c =? 45)).
      * constructor; [by right |]. apply Forall_app.
        split; [apply Forall_replicate; by left |].
        eapply Forall_impl; [eassumption |]. simpl. tauto.
      * apply Forall_app. split; [apply Forall_replicate; by left |].
        constructor; [by right |].
        eapply Forall_impl; [eassumption |]. simpl. tauto.
    + eapply Forall_impl; [eassumption |]. simpl. tauto.
Qed.

Lemma first_date_cases txts :
  (first_date txts = Ok [] ∧ Forall (fun t => search date_pattern t = None) txts)
  ∨ (∃ pre txt post m, txts = pre ++ txt :: post
       ∧ Forall (fun t => search date_pattern t = None) pre
       ∧ search date_pattern txt = Some m
       ∧ first_date txts = date_of_match m).
Proof.
  induction txts as [|t txts IH]; [by left |]. simpl.
  destruct (search date_pattern t) as [m|] eqn:Hm.
  - right. by exists [], t, txts, m.
  - destruct IH as [[-> Hall] | (pre & txt & post & m & -> & Hpre & Htxt & ->)].
    + left. split; [done | by constructor].
    + right. exists (t :: pre), txt, post, m. repeat split; try done.
      by constructor.
Qed.
End DateResults.

Section DateOutcomes.
Context {U : UnicodeData} {P : HtmlParser}.

Lemma parse_meeting_date_Ok page_html r :
  parse_meeting_date page_html = Ok r →
  r = [] ∨ (length r = 8%nat ∧ take 2 r ∈ MONTH_NUMBERS
            ∧ Forall (fun x => x = 48 ∨ is_decimal x = true)
                (drop 2 r)).
Proof.
  unfold parse_meeting_date.
  destruct (first_date_cases (possible_texts (BeautifulSoup page_html)))
    as [[-> _] | (pre & txt & post & m & _ & _ & Hm & ->)].
  - intros [= <-]. by left.
  - intros Hr. right. by eapply date_of_match_Ok.
Qed.

Lemma parse_meeting_date_Raise page_html e :
  parse_meeting_date page_html = Raise e → e = KeyError.
Proof.
  unfold parse_meeting_date.
  destruct (first_date_cases (possible_texts (BeautifulSoup page_html)))
    as [[-> _] | (pre & txt & post & m & _ & _ & Hm & ->)]; [done |].
  unfold date_of_match. by destruct (month_num !! _); intros [= <-].
Qed.

Lemma parse_meeting_date_empty page_html :
  parse_meeting_date page_html = Ok []
  ↔ Forall (fun t => search date_pattern t = None)
      (possible_texts (BeautifulSoup page_html)).
Proof.
  unfold parse_meeting_date. split; [| apply first_date_none].
  destruct (first_date_cases (possible_texts (BeautifulSoup page_html)))
    as [[_ Hall] | (pre & txt & post & m & _ & _ & Hm & ->)]; [done |].
  intros Hempty. destruct (date_of_match_Ok _ _ _ Hm Hempty) as [Hlen _].
  done.
Qed.
End DateOutcomes.

(** X5. [parse_meeting_date] has three outcomes only: the empty string;
    a string of eight characters that begins with one of "01" ... "12"
    and goes on with six characters each of which is of the digit class
    or the padding zero; or a KeyError. *)
Theorem parse_meeting_date_outcomes {U : UnicodeData} {P : HtmlParser}
    (page_html : str) :
  (∀ r, parse_meeting_date page_html = Ok r →
     r = [] ∨ (length r = 8%nat ∧ take 2 r ∈ MONTH_NUMBERS
               ∧ Forall (fun x => x = 48 ∨ is_decimal x = true)
                   (drop 2 r)))
  ∧ (∀ e, parse_meeting_date page_html = Raise e → e = KeyError).
Proof.
  split; [intros r; apply parse_meeting_date_Ok | intros e; apply parse_meeting_date_Raise].
Qed.

Lemma parse_meeting_date_outcomes_witness :
  cp "06052023" = []
  ∨ (length (cp "06052023") = 8%nat ∧ take 2 (cp "06052023") ∈ MONTH_NUMBERS
     ∧ Forall (fun x => x = 48 ∨ @is_decimal basic_latin x = true)
         (drop 2 (cp "06052023"))).
Proof.
  apply (proj1 (parse_meeting_date_outcomes (U := basic_latin)
                  (P := canned dated_heading_page) [])).
  vm_compute. reflexivity.
Defined.

(** X6. [parse_meeting_date] returns the empty string exactly when no
    candidate fragment matches the date pattern: a match never yields an
    empty result. *)
Theorem parse_meeting_date_empty_iff {U : UnicodeData} {P : HtmlParser}
    (page_html : str) :
  parse_meeting_date page_html = Ok []
  ↔ Forall (fun t => search date_pattern t = None)
      (possible_texts (BeautifulSoup page_html)).
Proof. apply parse_meeting_date_empty. Qed.

(** X7. A page one of whose candidate fragments contains, anywhere in it,
    a date written <month> <space> <day> [,] <space> <four-digit year> is
    never treated as undated: [parse_meeting_date] does not return the
    empty string for it. *)
Theorem written_date_is_found {U : UnicodeData} {P : HtmlParser}
    (page_html txt before g rest : str) :
  txt ∈ possible_texts (BeautifulSoup page_html) →
  txt = before ++ g ++ rest → spells_date g →
  parse_meeting_date page_html ≠ Ok [].
Proof.
  intros Hin -> Hg Hempty. apply parse_meeting_date_empty in Hempty.
  rewrite Forall_forall in Hempty. specialize (Hempty _ Hin).
  apply spells_date_matches in Hg as [m Hm].
  destruct (search_complete date_pattern before g rest m Hm) as [c Hc].
  congruence.
Qed.

Lemma written_date_is_found_witness :
  parse_meeting_date (U := basic_latin) (P := canned dated_heading_page) [] ≠ Ok [].
Proof.
  apply (written_date_is_found (U := basic_latin) (P := canned dated_heading_page)
           [] heading_with_date (cp "Regular Meeting, monday ") (cp "JUNE  5 2023")
           (cp " 6:00 PM")).
  - vm_compute. right. left.
  - reflexivity.
  - exists (cp "June"), (cp "JUNE"), (cp "  "), (cp "5"), [], (cp " "), (cp "2023").
    vm_compute. repeat split; try discriminate; try (repeat constructor); try lia.
Defined.

(** ** Which exceptions leave the orchestrator *)

Lemma raises_only_bind {A B} E (m : M A) (f : A → M B) :
  raises_only E m → (∀ a, raises_only E (f a)) → raises_only E (bind m f).
Proof.
  intros Hm Hf w e w'. unfold bind.
  destruct (m w) as [[a | e0] w0] eqn:Hmw.
  - apply Hf.
  - intros [= <- <-]. by eapply Hm.
Qed.

Lemma raises_only_for_each {A} E (l : list A) (body : A → M unit) :
  (∀ x, raises_only E (body x)) → raises_only E (for_each l body).
Proof.
  intros Hbody. induction l as [|x l IH]; simpl; [by intros ??? |].
  apply raises_only_bind; [apply Hbody | intros _; apply IH].
Qed.

Section Exceptions.
Context {U : UnicodeData} {P : HtmlParser} {Net : Network}.

Lemma process_file_returns year_dir date_str link w :
  (process_file year_dir date_str link w).1 = Ok tt.
Proof.
  destruct link as [file_url ftype].
  unfold process_file, bind at 1, path_exists. case_bool_decide; [done |].
  unfold try_except, bind, download, emit, print.
  by destruct (http_stream _ _).
Qed.

Lemma process_meeting_raises year year_dir meeting_id :
  raises_only (fun e => e = KeyError) (process_meeting year year_dir meeting_id).
Proof.
  unfold process_meeting. apply raises_only_bind.
  - intros w e w'. unfold try_except, bind, fetch, print, emit, ret.
    by destruct (http_get _ _).
  - intros [html |]; [| by intros ???].
    apply raises_only_bind.
    + intros w e w'. unfold meeting_date_str, bind, lift, ret.
      destruct (parse_meeting_date html) as [r | e0] eqn:Hparse; [done |].
      intros [= <- <-]. by eapply parse_meeting_date_Raise.
    + intros d. apply raises_only_for_each. intros link w e w' Hraise.
      pose proof (process_file_returns year_dir d link w) as Hok.
      by rewrite Hraise in Hok.
Qed.

Lemma guarded_download_returns file_url dst w :
  (try_except (download file_url dst ;; emit Sleep ;; print (Saved dst))
     (fun _ => print (DownloadFailed file_url)) w).1 = Ok tt.
Proof.
  unfold try_except, bind, download, emit, print.
  by destruct (http_stream _ _).
Qed.

Lemma scrape_year_raises_request year out_root w w' :
  scrape_year year out_root w = (Raise RequestException, w') →
  http_get (S (length (trace w))) (list_url year) = None
  ∧ w' = after_failed_listing year w.
Proof.
  destruct (http_get (S (length (trace w))) (list_url year)) as [html|] eqn:Hget.
  - rewrite (scrape_year_after_listing _ _ _ _ Hget), extract_meeting_ids_eq.
    destruct (ids_within_limit _); [| done].
    destruct (dedup _) as [|id ids]; [done |].
    case_bool_decide; [done |]. intros Hraise.
    by apply (raises_only_for_each (fun e => e = KeyError)) in Hraise;
      [| intros id'; apply process_meeting_raises].
  - rewrite scrape_year_listing_failure by done. by intros [= <-].
Qed.
End Exceptions.

(** X8. Where errors are caught and where they leave a year.  The guarded
    download never raises: whatever goes wrong in it is reported and
    passed over.  A meeting never raises a RequestException, since the
    failure of its page request is caught.  So a RequestException leaves a
    year only from the fetch of its listing page, after the header line
    and that request.  A listing page with a meeting id too long for
    [int()] ends the year in ValueError, and a file standing where the
    output directory or the year's directory should be ends it in OSError,
    both right after the listing request, before any meeting page is
    requested. *)
Theorem errors_that_leave_a_year {U : UnicodeData} {P : HtmlParser}
    {Net : Network} (year meeting_id : N) (year_dir out_root : str)
    (file_url dst : str) (w : World) :
  (try_except (download file_url dst ;; emit Sleep ;; print (Saved dst))
     (fun _ => print (DownloadFailed file_url)) w).1 = Ok tt
  ∧ (∀ e w', process_meeting year year_dir meeting_id w = (Raise e, w') →
       e ≠ RequestException)
  ∧ (∀ w', scrape_year year out_root w = (Raise RequestException, w') →
       http_get (S (length (trace w))) (list_url year) = None
       ∧ w' = after_failed_listing year w)
  ∧ (∀ list_html,
       http_get (S (length (trace w))) (list_url year) = Some list_html →
       ids_within_limit (anchors (BeautifulSoup list_html)) = false →
       scrape_year year out_root w = (Raise ValueError, after_failed_listing year w))
  ∧ (∀ list_html id ids,
       http_get (S (length (trace w))) (list_url year) = Some list_html →
       extract_meeting_ids list_html = Ok (id :: ids) →
       is_Some (files w !! out_root)
       ∨ is_Some (files w !! joinpath out_root (str_of_int year)) →
       scrape_year year out_root w = (Raise OSError, after_failed_listing year w)).
Proof.
  split; [apply guarded_download_returns |]. split; [| split; [| split]].
  - intros e w' Hraise. by rewrite (process_meeting_raises _ _ _ _ _ _ Hraise).
  - intros w'. apply scrape_year_raises_request.
  - intros html Hget Hlimit.
    by rewrite (scrape_year_after_listing _ _ _ _ Hget), extract_meeting_ids_eq,
      Hlimit.
  - intros html id ids Hget Hids Hfile.
    rewrite (scrape_year_after_listing _ _ _ _ Hget), Hids.
    by rewrite bool_decide_eq_true_2.
Qed.

Lemma errors_that_leave_a_year_witness :
  scrape_year (U := basic_latin) (P := canned long_id_listing)
    (Net := serving_site) 2023 OUT_ROOT empty_world
  = (Raise ValueError, after_failed_listing 2023 empty_world)
  ∧ scrape_year (U := basic_latin) (P := canned two_meetings_listing)
      (Net := serving_site) 2023 (cp "joplin_council_pdfs/2023/05012023_agenda.pdf") one_saved_file
    = (Raise OSError, after_failed_listing 2023 one_saved_file).
Proof.
  split.
  - apply (proj1 (proj2 (proj2 (proj2
             (errors_that_leave_a_year (U := basic_latin)
                (P := canned long_id_listing) (Net := serving_site)
                2023 501 [] OUT_ROOT [] [] empty_world)))) []).
    + reflexivity.
    + vm_compute. reflexivity.
  - apply (proj2 (proj2 (proj2 (proj2
             (errors_that_leave_a_year (U := basic_latin)
                (P := canned two_meetings_listing) (Net := serving_site)
                2023 501 [] (cp "joplin_council_pdfs/2023/05012023_agenda.pdf") [] []
                one_saved_file))))
             [] 501 [502]).
    + reflexivity.
    + vm_compute. reflexivity.
    + left. vm_compute. eexists. reflexivity.
Defined.

(** ** The paths through a year *)

Section YearPaths.
Context {U : UnicodeData} {P : HtmlParser} {Net : Network}.

Lemma extract_meeting_ids_absent list_html :
  (∀ href, href ∈ anchors (BeautifulSoup list_html) →
           contains href MEETING_PATH = false) →
  extract_meeting_ids list_html = Ok [].
Proof.
  intros Hnone. rewrite extract_meeting_ids_eq.
  destruct (ids_within_limit_no_match (anchors (BeautifulSoup list_html)))
    as [-> ->]; [| done].
  intros href Hin. specialize (Hnone href Hin).
  apply href_meeting_id_absent in Hnone. unfold href_meeting_id in Hnone.
  by destruct (search meeting_id_pattern href).
Qed.

Lemma process_meeting_fetch_failure year year_dir meeting_id w :
  http_get (length (trace w)) (meeting_url year meeting_id) = None →
  process_meeting year year_dir meeting_id w
  = (Ok tt, with_events w [Get (meeting_url year meeting_id);
                           Print (MeetingFailed meeting_id)]).
Proof.
  intros Hget. unfold process_meeting, bind, try_except, fetch, print, emit, ret.
  rewrite Hget. simpl. unfold with_events. by rewrite <- (assoc_L (++)).
Qed.
End YearPaths.

(** X9. When the listing page of a year is fetched and none of its
    anchors contains /AgendaCenter/26/, the year ends normally after the
    header line, that one request and the "no meetings" line: no file is
    touched and nothing else is requested. *)
Theorem year_without_meetings {U : UnicodeData} {P : HtmlParser} {Net : Network}
    (year : N) (out_root list_html : str) (w : World) :
  http_get (S (length (trace w))) (list_url year) = Some list_html →
  (∀ href, href ∈ anchors (BeautifulSoup list_html) →
           contains href MEETING_PATH = false) →
  scrape_year year out_root w
  = (Ok tt, with_events w [Print (Scraping year); Get (list_url year);
                           Print (NoMeetings year)]).
Proof.
  intros Hget Hnone.
  by rewrite (scrape_year_after_listing _ _ _ _ Hget), extract_meeting_ids_absent.
Qed.

Lemma year_without_meetings_witness :
  scrape_year (U := basic_latin) (P := canned listing_without_meetings)
    (Net := serving_site) 2024 OUT_ROOT empty_world
  = (Ok tt, with_events empty_world
              [Print (Scraping 2024); Get (list_url 2024); Print (NoMeetings 2024)]).
Proof.
  apply (year_without_meetings (U := basic_latin)
           (P := canned listing_without_meetings) (Net := serving_site)
           2024 OUT_ROOT [] empty_world).
  - reflexivity.
  - intros href Hin. vm_compute in Hin.
    apply elem_of_cons in Hin as [-> | Hin]; [reflexivity |].
    apply elem_of_cons in Hin as [-> | Hin]; [reflexivity |].
    by apply elem_of_nil in Hin.
Defined.

(** X10. A meeting page that cannot be fetched costs one request and one
    console line; the meeting is skipped without an exception, no file is
    touched, and the loop goes on with the remaining meetings. *)
Theorem failed_meeting_page_is_skipped {U : UnicodeData} {P : HtmlParser}
    {Net : Network} (year meeting_id : N) (year_dir : str) (ids : list N)
    (w : World) :
  http_get (length (trace w)) (meeting_url year meeting_id) = None →
  let w' := with_events w [Get (meeting_url year meeting_id);
                           Print (MeetingFailed meeting_id)] in
  process_meeting year year_dir meeting_id w = (Ok tt, w')
  ∧ for_each (meeting_id :: ids) (process_meeting year year_dir) w
    = for_each ids (process_meeting year year_dir) w'.
Proof.
  intros Hget w'.
  pose proof (process_meeting_fetch_failure year year_dir meeting_id w Hget) as Hm.
  split; [done |]. simpl. unfold bind at 1. by rewrite Hm.
Qed.

Lemma failed_meeting_page_is_skipped_witness :
  process_meeting (U := basic_latin) (P := canned no_soup) (Net := flaky_site)
    2023 (cp "out/2023") 501 empty_world
  = (Ok tt, with_events empty_world
              [Get (meeting_url 2023 501); Print (MeetingFailed 501)])
  ∧ for_each [501; 502]
      (process_meeting (U := basic_latin) (P := canned no_soup) (Net := flaky_site)
         2023 (cp "out/2023")) empty_world
    = for_each [502]
        (process_meeting (U := basic_latin) (P := canned no_soup) (Net := flaky_site)
           2023 (cp "out/2023"))
        (with_events empty_world
           [Get (meeting_url 2023 501); Print (MeetingFailed 501)]).
Proof.
  apply (failed_meeting_page_is_skipped (U := basic_latin) (P := canned no_soup)
           (Net := flaky_site) 2023 501 (cp "out/2023") [502] empty_world).
  reflexivity.
Defined.

(** ** What a download attempt leaves behind *)

Section Attempts.
Context {Net : Network}.

Lemma process_file_attempt year_dir date_str file_url ftype w :
  let dst := joinpath year_dir (build_filename date_str ftype file_url) in
  files w !! dst = None →
  process_file year_dir date_str (file_url, ftype) w
  = (Ok tt,
     match http_stream (length (trace w)) file_url with
     | Refused =>
         with_events w [Stream file_url dst; Print (DownloadFailed file_url)]
     | Broken b =>
         {| files := <[dst := b]> (files w);
            trace := trace w ++ [Stream file_url dst; Print (DownloadFailed file_url)] |}
     | Complete b =>
         {| files := <[dst := b]> (files w);
            trace := trace w ++ [Stream file_url dst; Sleep; Print (Saved dst)] |}
     end).
Proof.
  intros dst Hnone. unfold process_file, bind at 1, path_exists. fold dst.
  rewrite bool_decide_eq_false_2 by (rewrite Hnone; by intros [??]).
  unfold try_except, bind, download, emit, print, with_events.
  destruct (http_stream _ _); simpl; unfold emit; simpl;
    by rewrite <- ?(assoc_L (++)).
Qed.
End Attempts.

(** X11. Once a download has opened its destination, that name is
    settled: whether the stream completed or broke off, the file stays as
    it is, and every later link that builds the same filename is skipped
    without a request.  A broken stream in particular leaves the bytes
    written so far under the final name, with no pause after it. *)
Theorem written_destination_is_final {Net : Network}
    (year_dir date_str file_url ftype : str) (w : World) :
  let dst := joinpath year_dir (build_filename date_str ftype file_url) in
  let w1 := (process_file year_dir date_str (file_url, ftype) w).2 in
  (is_Some (files w !! dst) ∨ http_stream (length (trace w)) file_url ≠ Refused →
   is_Some (files w1 !! dst)
   ∧ ∀ date_str' ftype' url',
       build_filename date_str' ftype' url' = build_filename date_str ftype file_url →
       process_file year_dir date_str' (url', ftype') w1 = (Ok tt, w1))
  ∧ (∀ b, files w !! dst = None →
          http_stream (length (trace w)) file_url = Broken b →
          files w1 !! dst = Some b
          ∧ trace w1 = trace w ++ [Stream file_url dst;
                                   Print (DownloadFailed file_url)]).
Proof.
  intros dst w1. split.
  - intros Hcase.
    assert (is_Some (files w1 !! dst)) as Hsome.
    { subst w1. destruct (files w !! dst) as [b0|] eqn:Hdst.
      - rewrite process_file_skips by (fold dst; rewrite Hdst; eauto).
        simpl. rewrite Hdst. eauto.
      - rewrite process_file_attempt by done. fold dst.
        destruct Hcase as [[? [=]] | Hne].
        destruct (http_stream _ _); [done | |]; simpl;
          rewrite lookup_insert_eq; eauto. }
    split; [done |]. intros d' t' u' Heq.
    apply process_file_skips. by rewrite Heq.
  - intros b Hnone Hb. subst w1. rewrite process_file_attempt by done.
    fold dst. rewrite Hb. simpl. by rewrite lookup_insert_eq.
Qed.

Lemma written_destination_is_final_witness :
  let dst := joinpath (cp "out/2023")
               (build_filename (cp "05012023") (cp "agenda") (cp "https://x/a.pdf")) in
  let w1 := (process_file (Net := flaky_site) (cp "out/2023") (cp "05012023")
               (cp "https://x/a.pdf", cp "agenda") empty_world).2 in
  (is_Some (files w1 !! dst)
   ∧ ∀ date_str' ftype' url',
       build_filename date_str' ftype' url'
       = build_filename (cp "05012023") (cp "agenda") (cp "https://x/a.pdf") →
       process_file (Net := flaky_site) (cp "out/2023") date_str' (url', ftype') w1
       = (Ok tt, w1))
  ∧ (files w1 !! dst = Some [Byte.x78]
     ∧ trace w1 = trace empty_world
                  ++ [Stream (cp "https://x/a.pdf") dst;
                      Print (DownloadFailed (cp "https://x/a.pdf"))]).
Proof.
  intros dst w1.
  destruct (written_destination_is_final (Net := flaky_site) (cp "out/2023")
              (cp "05012023") (cp "https://x/a.pdf") (cp "agenda") empty_world)
    as [Hfinal Hbroken].
  split.
  - apply Hfinal. right. discriminate.
  - apply Hbroken; reflexivity.
Defined.

(** ** What a run adds to the trace *)

Section Adds.
Context (Q : list event → Prop).
Hypothesis Q_nil : Q [].
Hypothesis Q_app : ∀ tr1 tr2, Q tr1 → Q tr2 → Q (tr1 ++ tr2).

Lemma adds_ret {A} (a : A) : adds Q (ret a).
Proof. intros w. exists []. by rewrite app_nil_r. Qed.

Lemma adds_lift {A} (r : result A) : adds Q (lift r).
Proof. intros w. exists []. by rewrite app_nil_r. Qed.

Lemma adds_bind {A B} (m : M A) (f : A → M B) :
  adds Q m → (∀ a, adds Q (f a)) → adds Q (bind m f).
Proof.
  intros Hm Hf w. unfold bind. destruct (Hm w) as (tr1 & Ht1 & HQ1).
  destruct (m w) as [[a | e] w1]; simpl in *; [| by exists tr1].
  destruct (Hf a w1) as (tr2 & Ht2 & HQ2). exists (tr1 ++ tr2).
  split; [by rewrite Ht2, Ht1, (assoc_L (++)) | by apply Q_app].
Qed.

Lemma adds_try_except {A} (m : M A) (h : exn → M A) :
  adds Q m → (∀ e, adds Q (h e)) → adds Q (try_except m h).
Proof.
  intros Hm Hh w. unfold try_except. destruct (Hm w) as (tr1 & Ht1 & HQ1).
  destruct (m w) as [[a | e] w1]; simpl in *; [by exists tr1 |].
  destruct (Hh e w1) as (tr2 & Ht2 & HQ2). exists (tr1 ++ tr2).
  split; [by rewrite Ht2, Ht1, (assoc_L (++)) | by apply Q_app].
Qed.

Lemma adds_for_each {A} (l : list A) (body : A → M unit) :
  (∀ x, adds Q (body x)) → adds Q (for_each l body).
Proof.
  intros Hbody. induction l as [|x l IH]; simpl; [apply adds_ret |].
  apply adds_bind; [apply Hbody | intros _; apply IH].
Qed.

Lemma adds_emit e : Q [e] → adds Q (emit e).
Proof. intros He w. by exists [e]. Qed.

Lemma adds_mkdir_year out_root year_dir : adds Q (mkdir_year out_root year_dir).
Proof. intros w. exists []. by rewrite mkdir_year_world, app_nil_r. Qed.

Lemma adds_fetch {Net : Network} url : Q [Get url] → adds Q (fetch url).
Proof.
  intros He w. exists [Get url]. unfold fetch. by destruct (http_get _ _).
Qed.

Section AddsProgram.
Context {U : UnicodeData} {P : HtmlParser} {Net : Network}.
Hypothesis Q_file : ∀ year_dir date_str link,
  adds Q (process_file year_dir date_str link).
Hypothesis Q_get : ∀ url, Q [Get url].
Hypothesis Q_print : ∀ m, is_saved (Print m) = false → Q [Print m].

Lemma adds_process_meeting year year_dir meeting_id :
  adds Q (process_meeting year year_dir meeting_id).
Proof.
  unfold process_meeting. apply adds_bind.
  - apply adds_try_except.
    + apply adds_bind; [apply adds_fetch, Q_get | intros; apply adds_ret].
    + intros _. apply adds_bind; [by apply adds_emit, Q_print |].
      intros; apply adds_ret.
  - intros [page |]; [| apply adds_ret].
    apply adds_bind.
    + unfold meeting_date_str. apply adds_bind; [apply adds_lift |].
      intros; apply adds_ret.
    + intros d. apply adds_for_each. intros link. apply Q_file.
Qed.

(** The shape of a run: whatever each file link adds satisfies [Q], and so
    do the lines and page requests around them. *)
Lemma adds_main :
  (∀ year out_root, adds Q (scrape_year year out_root)) ∧ adds Q main.
Proof.
  assert (∀ year out_root, adds Q (scrape_year year out_root)) as Hyear.
  { intros year out_root. unfold scrape_year.
    apply adds_bind; [by apply adds_emit, Q_print |]. intros _.
    apply adds_bind; [apply adds_fetch, Q_get |]. intros html.
    apply adds_bind; [apply adds_lift |].
    intros [|id ids]; [by apply adds_emit, Q_print |].
    apply adds_bind; [apply adds_mkdir_year |]. intros _.
    apply adds_for_each. intros id'. apply adds_process_meeting. }
  split; [done |]. apply adds_for_each. intros yr. apply Hyear.
Qed.
End AddsProgram.
End Adds.

Lemma paced_app tr1 tr2 : paced tr1 → paced tr2 → paced (tr1 ++ tr2).
Proof.
  induction 1; intros Htr2; simpl; [done | | |]; constructor; auto.
Qed.

Lemma paced_counts tr : paced tr → count is_sleep tr = count is_saved tr.
Proof.
  induction 1 as [| | |e tr _ Hsl Hsv _ IH]; simpl; [done | lia | lia |].
  by rewrite Hsl, Hsv, IH.
Qed.

Lemma paced_pause tr : paced tr → ∀ tr1 tr2,
  tr = tr1 ++ Sleep :: tr2 →
  ∃ tr0 url dst tr3, tr1 = tr0 ++ [Stream url dst] ∧ tr2 = Print (Saved dst) :: tr3.
Proof.
  induction 1 as [|url dst tr _ IH|url dst tr _ IH|e tr _ Hsl _ _ IH];
    intros tr1 tr2 Heq.
  - by destruct tr1.
  - destruct tr1 as [|e1 [|e2 [|e3 tr1]]]; simplify_eq/=.
    + by exists [], url, dst, tr.
    + destruct (IH _ _ eq_refl) as (tr0 & u & d & tr3 & -> & ->).
      by exists (Stream url dst :: Sleep :: Print (Saved dst) :: tr0), u, d, tr3.
  - destruct tr1 as [|e1 [|e2 tr1]]; simplify_eq/=.
    destruct (IH _ _ eq_refl) as (tr0 & u & d & tr3 & -> & ->).
    by exists (Stream url dst :: Print (DownloadFailed url) :: tr0), u, d, tr3.
  - destruct tr1 as [|e1 tr1]; simplify_eq/=.
    destruct (IH _ _ eq_refl) as (tr0 & u & d & tr3 & -> & ->).
    by exists (e1 :: tr0), u, d, tr3.
Qed.

Lemma paced_saved_line tr : paced tr → ∀ tr1 dst tr2,
  tr = tr1 ++ Print (Saved dst) :: tr2 →
  ∃ tr0 url, tr1 = tr0 ++ [Stream url dst; Sleep].
Proof.
  induction 1 as [|url dst tr _ IH|url dst tr _ IH|e tr _ _ Hsv _ IH];
    intros tr1 d tr2 Heq.
  - by destruct tr1.
  - destruct tr1 as [|e1 [|e2 [|e3 tr1]]]; simplify_eq/=.
    + by exists [], url.
    + destruct (IH _ _ _ eq_refl) as (tr0 & u & ->).
      by exists (Stream url dst :: Sleep :: Print (Saved dst) :: tr0), u.
  - destruct tr1 as [|e1 [|e2 tr1]]; simplify_eq/=.
    destruct (IH _ _ _ eq_refl) as (tr0 & u & ->).
    by exists (Stream url dst :: Print (DownloadFailed url) :: tr0), u.
  - destruct tr1 as [|e1 tr1]; simplify_eq/=.
    destruct (IH _ _ _ eq_refl) as (tr0 & u & ->).
    by exists (e1 :: tr0), u.
Qed.

Lemma paced_in_place tr :
  paced tr → pauses_in_place tr ∧ count is_sleep tr = count is_saved tr.
Proof.
  intros Hp. split; [split |].
  - by apply paced_pause.
  - by apply paced_saved_line.
  - by apply paced_counts.
Qed.

Lemma process_file_paced {Net : Network} year_dir date_str link :
  adds paced (process_file year_dir date_str link).
Proof.
  destruct link as [file_url ftype]. intros w.
  set (dst := joinpath year_dir (build_filename date_str ftype file_url)).
  destruct (files w !! dst) as [b|] eqn:Hdst.
  - rewrite process_file_skips by (fold dst; rewrite Hdst; eauto).
    exists []. rewrite app_nil_r. split; [done | constructor].
  - rewrite process_file_attempt by done. fold dst.
    destruct (http_stream _ _); eexists; (split; [reflexivity |]);
      repeat constructor.
Qed.

Section Pacing.
Context {U : UnicodeData} {P : HtmlParser} {Net : Network}.

Lemma paced_main :
  (∀ year out_root, adds paced (scrape_year year out_root)) ∧ adds paced main.
Proof.
  apply (@adds_main paced paced_nil paced_app U P Net).
  - intros. apply process_file_paced.
  - intros url. by repeat constructor.
  - intros m Hm. by repeat constructor.
Qed.
End Pacing.

(** X12. The program pauses exactly once for every file it reports as
    saved, and nowhere else: in what a year or a whole run adds to the
    trace, every pause comes right after the start of a download and right
    before the "saved" line for the destination of that download, and
    every "saved" line comes right after such a pause.  So there are as
    many pauses as "saved" lines, and no pause follows a page request, a
    failed download or a skipped file. *)
Theorem one_pause_per_saved_file {U : UnicodeData} {P : HtmlParser}
    {Net : Network} (w : World) :
  (∀ year out_root, ∃ tr,
     trace (scrape_year year out_root w).2 = trace w ++ tr
     ∧ pauses_in_place tr ∧ count is_sleep tr = count is_saved tr)
  ∧ ∃ tr, trace (main w).2 = trace w ++ tr
          ∧ pauses_in_place tr ∧ count is_sleep tr = count is_saved tr.
Proof.
  destruct paced_main as [Hyear Hmain]. split.
  - intros year out_root. destruct (Hyear year out_root w) as (tr & Htr & Hp).
    exists tr. split; [done | by apply paced_in_place].
  - destruct (Hmain w) as (tr & Htr & Hp).
    exists tr. split; [done | by apply paced_in_place].
Qed.

Lemma one_pause_per_saved_file_witness :
  ∃ tr, trace (scrape_year (U := basic_latin) (P := canned one_meeting_page)
                 (Net := serving_site) 2023 OUT_ROOT empty_world).2
        = trace empty_world ++ tr
        ∧ pauses_in_place tr
        ∧ count is_sleep tr = count is_saved tr
        ∧ count is_sleep tr = 1%nat.
Proof.
  destruct (proj1 (one_pause_per_saved_file (U := basic_latin)
                     (P := canned one_meeting_page) (Net := serving_site)
                     empty_world) 2023 OUT_ROOT) as (tr & Htr & Hplace & Hcount).
  exists tr. split; [exact Htr |]. split; [exact Hplace |].
  split; [exact Hcount |].
  vm_compute in Htr. by rewrite <- Htr.
Defined.

(** ** Where files are written *)

Lemma split_no_sep sep s : Forall (fun x => sep ∉ x) (split sep s).
Proof.
  induction s as [|c s IH]; simpl.
  - constructor; [apply not_elem_of_nil | constructor].
  - destruct (N.eqb_spec c sep) as [-> | Hne].
    + constructor; [apply not_elem_of_nil | done].
    + destruct (split sep s) as [|h t].
      * constructor; [| constructor]. rewrite list_elem_of_singleton. congruence.
      * inversion IH; subst. constructor; [| done].
        rewrite elem_of_cons. intros [? | ?]; [congruence | done].
Qed.

Lemma path_name_no_slash url : 47 ∉ path_name url.
Proof.
  unfold path_name.
  destruct (last _) as [name|] eqn:Hlast; simpl; [| apply not_elem_of_nil].
  apply last_Some_elem_of, list_elem_of_filter in Hlast as [_ Hin].
  pose proof (split_no_sep 47 url) as Hall.
  by eapply Forall_forall in Hall.
Qed.

Lemma path_suffix_no_slash url : 47 ∉ path_suffix url.
Proof.
  unfold path_suffix. destruct (rfind _ _) as [i|]; [| apply not_elem_of_nil].
  case_bool_decide; [| apply not_elem_of_nil].
  intros Hin. apply (path_name_no_slash url).
  rewrite <- (take_drop i (path_name url)). apply elem_of_app. by right.
Qed.

(** The filename has a slash only if the date string or the type has. *)
Lemma build_filename_component date_str ftype url :
  47 ∉ date_str → 47 ∉ ftype →
  let f := build_filename date_str ftype url in
  (47 ∉ f) ∧ f ≠ cp "." ∧ f ≠ cp "..".
Proof.
  intros Hd Ht f. assert (95 ∈ f) as Husc.
  { subst f. unfold build_filename. rewrite !elem_of_app. right. left. by left. }
  split; [| split].
  - subst f. unfold build_filename. rewrite !elem_of_app.
    intros [? | [Hin | [? | Hin]]]; try done.
    + apply list_elem_of_singleton in Hin. done.
    + case_bool_decide; [by vm_compute in Hin; set_solver |].
      by apply (path_suffix_no_slash url).
  - intros Heq. rewrite Heq in Husc. vm_compute in Husc. set_solver.
  - intros Heq. rewrite Heq in Husc. vm_compute in Husc. set_solver.
Qed.

Lemma str_of_int_no_slash n : 47 ∉ str_of_int n.
Proof.
  assert (∀ x s, 47 ∉ cp s → 47 ∉ cp (pretty_N_go x s)) as Hgo.
  { intros x. induction (N.lt_wf_0 x) as [x _ IH]. intros s Hs.
    assert (x = 0 ∨ 0 < x) as [-> | Hpos] by lia.
    - by rewrite pretty_N_go_0.
    - rewrite pretty_N_go_step by done. apply IH; [by apply N.div_lt |].
      unfold cp. simpl. fold (cp s). rewrite elem_of_cons.
      intros [Heq | ?]; [| done]. revert Heq.
      unfold pretty_N_char. by repeat case_match. }
  unfold str_of_int, pretty, pretty_N. case_decide.
  - vm_compute. set_solver.
  - apply Hgo. apply not_elem_of_nil.
Qed.

Section Respects.
Context (R : World → World → Prop).
Hypothesis R_refl : ∀ w, R w w.
Hypothesis R_trans : ∀ w1 w2 w3, R w1 w2 → R w2 w3 → R w1 w3.

Lemma respects_ret {A} (a : A) : respects R (ret a).
Proof. intros w. apply R_refl. Qed.

Lemma respects_lift {A} (r : result A) : respects R (lift r).
Proof. intros w. apply R_refl. Qed.

Lemma respects_bind_in {A B} (m : M A) (f : A → M B) (I : A → Prop) :
  respects R m → (∀ w a w', m w = (Ok a, w') → I a) →
  (∀ a, I a → respects R (f a)) → respects R (bind m f).
Proof.
  intros Hm HI Hf w. unfold bind. specialize (Hm w). specialize (HI w).
  destruct (m w) as [[a | e] w']; [| done].
  eapply R_trans; [exact Hm |]. apply Hf. by eapply HI.
Qed.

Lemma respects_bind {A B} (m : M A) (f : A → M B) :
  respects R m → (∀ a, respects R (f a)) → respects R (bind m f).
Proof.
  intros Hm Hf. apply (respects_bind_in m f (fun _ => True)); auto.
Qed.

Lemma respects_try_except {A} (m : M A) (h : exn → M A) :
  respects R m → (∀ e, respects R (h e)) → respects R (try_except m h).
Proof.
  intros Hm Hh w. unfold try_except. specialize (Hm w).
  destruct (m w) as [[a | e] w']; [done |].
  eapply R_trans; [exact Hm | apply Hh].
Qed.

Lemma respects_for_each {A} (l : list A) (body : A → M unit) :
  (∀ x, x ∈ l → respects R (body x)) → respects R (for_each l body).
Proof.
  induction l as [|x l IH]; intros Hbody; simpl; [apply respects_ret |].
  apply respects_bind; [apply Hbody; by left |].
  intros _. apply IH. intros y Hy. apply Hbody. by right.
Qed.
End Respects.

Lemma new_files_in_refl G w : new_files_in G w w.
Proof. intros p Hp. by left. Qed.

Lemma new_files_in_trans G w1 w2 w3 :
  new_files_in G w1 w2 → new_files_in G w2 w3 → new_files_in G w1 w3.
Proof.
  intros H12 H23 p Hp. destruct (H23 p Hp) as [Hp2 | ?]; [| by right].
  by apply H12.
Qed.

Lemma new_files_in_same_files G w w' : files w' = files w → new_files_in G w w'.
Proof. intros Heq p Hp. left. by rewrite <- Heq. Qed.

Section FileLocations.
Context {U : UnicodeData} {P : HtmlParser} {Net : Network}.

Lemma fetch_no_new_files G url : respects (new_files_in G) (fetch url).
Proof.
  intros w. apply new_files_in_same_files. unfold fetch.
  by destruct (http_get _ _).
Qed.

Lemma emit_no_new_files G e : respects (new_files_in G) (emit e).
Proof. intros w. by apply new_files_in_same_files. Qed.

Lemma process_file_location year_dir date_str file_url ftype :
  47 ∉ date_str → 47 ∉ ftype →
  respects (new_files_in (direct_child year_dir))
    (process_file year_dir date_str (file_url, ftype)).
Proof.
  intros Hd Ht w.
  set (dst := joinpath year_dir (build_filename date_str ftype file_url)).
  destruct (files w !! dst) as [b|] eqn:Hdst.
  - rewrite process_file_skips by (fold dst; rewrite Hdst; eauto).
    apply new_files_in_refl.
  - rewrite process_file_attempt by done. fold dst.
    assert (direct_child year_dir dst) as Hchild.
    { exists (build_filename date_str ftype file_url).
      split; [done |]. by apply build_filename_component. }
    destruct (http_stream _ _); simpl.
    + by apply new_files_in_same_files.
    + intros p. simpl. rewrite lookup_insert.
      case_decide; [subst; by right | by left].
    + intros p. simpl. rewrite lookup_insert.
      case_decide; [subst; by right | by left].
Qed.

Lemma type_tag_no_slash ftype : ftype ∈ TYPE_TAGS → 47 ∉ ftype.
Proof.
  intros Hin. vm_compute in Hin.
  repeat (apply elem_of_cons in Hin as [-> | Hin]; [vm_compute; set_solver |]).
  by apply elem_of_nil in Hin.
Qed.

Lemma month_number_no_slash v : v ∈ MONTH_NUMBERS → 47 ∉ v.
Proof.
  intros Hin. vm_compute in Hin.
  repeat (apply elem_of_cons in Hin as [-> | Hin]; [vm_compute; set_solver |]).
  by apply elem_of_nil in Hin.
Qed.

Lemma meeting_date_str_no_slash meeting_id meeting_html w d w' :
  is_decimal 47 = false →
  meeting_date_str meeting_id meeting_html w = (Ok d, w') → 47 ∉ d.
Proof.
  intros Hslash. unfold meeting_date_str, bind, lift, ret.
  destruct (parse_meeting_date meeting_html) as [r | e] eqn:Hparse; [| done].
  intros [= <- <-]. case_bool_decide.
  - change (47 ∉ cp "id" ++ str_of_int meeting_id).
    rewrite elem_of_app. intros [Hin | Hin].
    + vm_compute in Hin. set_solver.
    + by apply (str_of_int_no_slash meeting_id).
  - apply parse_meeting_date_Ok in Hparse as [-> | (_ & Hmm & Hrest)]; [done |].
    rewrite <- (take_drop 2 r), elem_of_app. intros [Hin | Hin].
    + by apply (month_number_no_slash _ Hmm).
    + rewrite Forall_forall in Hrest.
      destruct (Hrest _ Hin) as [? | ?]; [done | congruence].
Qed.

Lemma process_meeting_location year year_dir meeting_id :
  is_decimal 47 = false →
  respects (new_files_in (direct_child year_dir))
    (process_meeting year year_dir meeting_id).
Proof.
  intros Hslash. unfold process_meeting.
  apply (respects_bind _ (new_files_in_trans _)).
  - apply (respects_try_except _ (new_files_in_trans _)).
    + apply (respects_bind _ (new_files_in_trans _)); [apply fetch_no_new_files |].
      intros html. apply respects_ret, new_files_in_refl.
    + intros _.
      apply (respects_bind _ (new_files_in_trans _)); [apply emit_no_new_files |].
      intros _. apply respects_ret, new_files_in_refl.
  - intros [html |]; [| apply respects_ret, new_files_in_refl].
    apply (respects_bind_in _ (new_files_in_trans _) _ _ (fun d => 47 ∉ d)).
    + intros w. apply new_files_in_same_files.
      unfold meeting_date_str, bind, lift, ret.
      by destruct (parse_meeting_date html).
    + intros w d w'. by apply meeting_date_str_no_slash.
    + intros d Hd.
      apply (respects_for_each _ (new_files_in_refl _) (new_files_in_trans _)).
      intros [url ftype] Hin. apply process_file_location; [done |].
      apply type_tag_no_slash.
      unfold extract_file_links in Hin.
      apply (proj1 (proj1 (proj2 (dedup_first_seen_order _)) _)) in Hin.
      rewrite collect_files_omap in Hin.
      apply list_elem_of_omap in Hin as (href & _ & Hentry).
      by apply link_entry_Some in Hentry as (_ & Htag & _).
Qed.

Lemma scrape_year_location year out_root :
  is_decimal 47 = false →
  respects (new_files_in (direct_child (joinpath out_root (str_of_int year))))
    (scrape_year year out_root).
Proof.
  intros Hslash. unfold scrape_year.
  apply (respects_bind _ (new_files_in_trans _)); [apply emit_no_new_files |].
  intros _.
  apply (respects_bind _ (new_files_in_trans _)); [apply fetch_no_new_files |].
  intros html.
  apply (respects_bind _ (new_files_in_trans _));
    [apply respects_lift, new_files_in_refl |].
  intros [|id ids]; [apply emit_no_new_files |].
  apply (respects_bind _ (new_files_in_trans _)).
  { intros w. rewrite mkdir_year_world. apply new_files_in_refl. }
  intros _.
  apply (respects_for_each _ (new_files_in_refl _) (new_files_in_trans _)).
  intros id' _. by apply process_meeting_location.
Qed.
End FileLocations.

(** X13. Whatever the pages contain, a year only ever creates files that
    are entries of its own directory <out_root>/<year>: the name built for
    a file holds no slash and is neither "." nor "..", so no link can
    place a file elsewhere; over a whole run every new file is an entry of
    joplin_council_pdfs/<year> for one of the years of the range.  (The
    slash must not count as a digit for [\d], as is the case.) *)
Theorem new_files_are_entries_of_the_year_directory {U : UnicodeData}
    {P : HtmlParser} {Net : Network} (w : World) :
  is_decimal 47 = false →
  (∀ year out_root p,
     is_Some (files (scrape_year year out_root w).2 !! p) →
     is_Some (files w !! p)
     ∨ direct_child (joinpath out_root (str_of_int year)) p)
  ∧ (∀ p, is_Some (files (main w).2 !! p) →
       is_Some (files w !! p)
       ∨ ∃ year, year ∈ YEARS
                 ∧ direct_child (joinpath OUT_ROOT (str_of_int year)) p).
Proof.
  intros Hslash. split.
  - intros year out_root p. by apply scrape_year_location.
  - pose (G := fun p => ∃ year, year ∈ YEARS
                 ∧ direct_child (joinpath OUT_ROOT (str_of_int year)) p).
    assert (respects (new_files_in G) main) as Hmain; [| apply Hmain].
    unfold main.
    apply (respects_for_each _ (new_files_in_refl _) (new_files_in_trans _)).
    intros yr Hyr w0 p Hp.
    destruct (scrape_year_location yr OUT_ROOT Hslash w0 p Hp) as [? | ?];
      [by left | right; by exists yr].
Qed.

Lemma new_files_are_entries_of_the_year_directory_witness :
  is_Some (files empty_world !! cp "out/2023/05012023_agenda.pdf")
  ∨ direct_child (joinpath (cp "out") (str_of_int 2023))
      (cp "out/2023/05012023_agenda.pdf").
Proof.
  apply (proj1 (new_files_are_entries_of_the_year_directory (U := basic_latin)
                  (P := canned one_meeting_page) (Net := serving_site)
                  empty_world eq_refl) 2023 (cp "out")).
  vm_compute. exists []. reflexivity.
Defined.

(** ** Names of meetings *)

Lemma cp_inj s1 s2 : cp s1 = cp s2 → s1 = s2.
Proof.
  unfold cp. intros Heq.
  rewrite <- (string_of_list_ascii_of_string s1),
          <- (string_of_list_ascii_of_string s2).
  f_equal. revert Heq.
  generalize (list_ascii_of_string s1) (list_ascii_of_string s2).
  intros l1. induction l1 as [|a l1 IH]; intros [|b l2]; simpl; try done.
  intros [= Hab Hl]. f_equal; [| by apply IH].
  by rewrite <- (ascii_N_embedding a), <- (ascii_N_embedding b), Hab.
Qed.

Lemma str_of_int_inj a b : str_of_int a = str_of_int b → a = b.
Proof. unfold str_of_int. intros Heq%cp_inj. by apply (inj pretty). Qed.

Lemma fallback_is_no_date {U : UnicodeData} {P : HtmlParser} page_html r n :
  parse_meeting_date page_html = Ok r → r ≠ cp "id" ++ str_of_int n.
Proof.
  intros Hparse Heq.
  apply parse_meeting_date_Ok in Hparse as [-> | (_ & Hmm & _)]; [done |].
  rewrite Heq in Hmm. change (take 2 (cp "id" ++ str_of_int n)) with (cp "id") in Hmm.
  vm_compute in Hmm. set_solver.
Qed.

Lemma meeting_date_str_cases {U : UnicodeData} {P : HtmlParser}
    meeting_id meeting_html w d w' :
  meeting_date_str meeting_id meeting_html w = (Ok d, w') →
  (parse_meeting_date meeting_html = Ok [] ∧ d = cp "id" ++ str_of_int meeting_id)
  ∨ (parse_meeting_date meeting_html = Ok d ∧ d ≠ []).
Proof.
  unfold meeting_date_str, bind, lift, ret.
  destruct (parse_meeting_date meeting_html) as [r | e]; [| done].
  intros Heq.
  assert ((if bool_decide (r = []) then cp "id" ++ str_of_int meeting_id else r) = d)
    as Hd by congruence.
  case_bool_decide; subst; [by left | by right].
Qed.

(** X14. The names under which meetings are stored clash only between
    dated meetings: the fallback id<meeting_id> differs from meeting to
    meeting and is never a date string, so two different meetings get the
    same name only when both pages give the same eight-character date. *)
Theorem meeting_names_clash_only_on_equal_dates {U : UnicodeData}
    {P : HtmlParser} (a b : N) (html_a html_b d : str) (wa wa' wb wb' : World) :
  meeting_date_str a html_a wa = (Ok d, wa') →
  meeting_date_str b html_b wb = (Ok d, wb') →
  a ≠ b →
  parse_meeting_date html_a = Ok d ∧ parse_meeting_date html_b = Ok d
  ∧ length d = 8%nat.
Proof.
  intros Ha Hb Hab.
  apply meeting_date_str_cases in Ha as [[Ha Hda] | [Ha Hda]];
    apply meeting_date_str_cases in Hb as [[Hb Hdb] | [Hb Hdb]].
  - rewrite Hda in Hdb. apply app_inv_head in Hdb.
    apply str_of_int_inj in Hdb. congruence.
  - subst d. by destruct (fallback_is_no_date html_b _ a Hb).
  - subst d. by destruct (fallback_is_no_date html_a _ b Ha).
  - split; [done |]. split; [done |].
    apply parse_meeting_date_Ok in Ha as [-> | (? & _)]; done.
Qed.

Lemma meeting_names_clash_only_on_equal_dates_witness :
  parse_meeting_date (U := basic_latin) (P := canned one_meeting_page) [] = Ok (cp "05012023")
  ∧ parse_meeting_date (U := basic_latin) (P := canned one_meeting_page) [] = Ok (cp "05012023")
  ∧ length (cp "05012023") = 8%nat.
Proof.
  apply (meeting_names_clash_only_on_equal_dates (U := basic_latin)
           (P := canned one_meeting_page) 501 502 [] [] (cp "05012023")
           empty_world empty_world empty_world empty_world).
  - vm_compute. reflexivity.
  - vm_compute. reflexivity.
  - discriminate.
Defined.

(** ** De-duplication of what is already distinct *)

Lemma keep_first_NoDup_id `{EqDecision A} (seen l : list A) :
  NoDup l → (∀ x, x ∈ l → x ∉ seen) → keep_first seen l = l.
Proof.
  intros Hnd. revert seen. induction Hnd as [|x l Hx Hnd IH]; intros seen Hdisj.
  - done.
  - simpl. rewrite decide_False by (apply Hdisj; by left).
    f_equal. apply IH. intros y Hy. rewrite elem_of_cons.
    intros [-> | Hin]; [done |]. by apply (Hdisj y); [right |].
Qed.

Lemma keep_first_length `{EqDecision A} (seen l : list A) :
  (length (keep_first seen l) ≤ length l)%nat.
Proof.
  revert seen. induction l as [|x l IH]; intros seen; simpl; [done |].
  destruct (decide (x ∈ seen)); simpl.
  - specialize (IH seen). lia.
  - specialize (IH (x :: seen)). lia.
Qed.

Lemma length_omap_le {A B} (f : A → option B) (l : list A) :
  (length (omap f l) ≤ length l)%nat.
Proof.
  induction l as [|x l IH]; [done |].
  change (omap f (x :: l))
    with (match f x with Some y => y :: omap f l | None => omap f l end).
  destruct (f x); simpl; lia.
Qed.

(** X15. When the anchors of a page give pairwise distinct results,
    extraction returns them all, unchanged and in anchor order; for the
    meeting ids this is so when none of them is too long for [int()].
    Whatever list an extraction returns has no entry twice and no more
    entries than the page has anchors.  This holds for the meeting ids of
    a listing page and for the file links of a meeting page alike. *)
Theorem extraction_keeps_distinct_results {U : UnicodeData} {P : HtmlParser}
    (html : str) :
  let hrefs := anchors (BeautifulSoup html) in
  (ids_within_limit hrefs = true → NoDup (omap href_meeting_id hrefs) →
   extract_meeting_ids html = Ok (omap href_meeting_id hrefs))
  ∧ (NoDup (omap link_entry hrefs) →
     extract_file_links html = omap link_entry hrefs)
  ∧ (∀ ids, extract_meeting_ids html = Ok ids →
       NoDup ids ∧ (length ids ≤ length hrefs)%nat)
  ∧ NoDup (extract_file_links html)
  ∧ (length (extract_file_links html) ≤ length hrefs)%nat.
Proof.
  intros hrefs. rewrite extract_meeting_ids_eq. fold hrefs.
  unfold extract_file_links. fold hrefs.
  rewrite collect_files_omap, !dedup_keep_first.
  split; [| split; [| split; [| split]]].
  - intros -> Hnd. f_equal. apply keep_first_NoDup_id; [done |].
    intros ? _. apply not_elem_of_nil.
  - intros Hnd. apply keep_first_NoDup_id; [done |].
    intros ? _. apply not_elem_of_nil.
  - intros ids. destruct (ids_within_limit hrefs); [| done].
    intros [= <-]. split; [apply keep_first_NoDup |].
    etrans; [apply keep_first_length | apply length_omap_le].
  - apply keep_first_NoDup.
  - etrans; [apply keep_first_length | apply length_omap_le].
Qed.

Lemma extraction_keeps_distinct_results_witness :
  extract_meeting_ids (U := basic_latin) (P := canned three_distinct_links) []
  = Ok (omap (href_meeting_id (U := basic_latin)) (anchors three_distinct_links)).
Proof.
  apply (proj1 (extraction_keeps_distinct_results (U := basic_latin)
                  (P := canned three_distinct_links) [])).
  - vm_compute. reflexivity.
  - vm_compute. repeat constructor; set_solver.
Defined.

(** ** The extension is that of the last path component *)

Lemma split_nonempty sep s : split sep s ≠ [].
Proof.
  destruct s as [|c s]; simpl; [done |].
  destruct (c =? sep); [done |]. by destruct (split sep s).
Qed.

Lemma split_app_sep sep a b :
  split sep (a ++ sep :: b) = split sep a ++ split sep b.
Proof.
  induction a as [|c a IH]; simpl.
  - by rewrite N.eqb_refl.
  - destruct (c =? sep); [by rewrite IH |]. rewrite IH.
    pose proof (split_nonempty sep a). by destruct (split sep a).
Qed.

Lemma split_no_sep_id sep s : sep ∉ s → split sep s = [s].
Proof.
  induction s as [|c s IH]; [done |]. rewrite not_elem_of_cons.
  intros [Hne Hs]. simpl. destruct (N.eqb_spec c sep); [congruence |].
  by rewrite IH.
Qed.

Lemma path_name_last_component dir name :
  47 ∉ name → name ≠ [] → name ≠ cp "." →
  path_name (dir ++ cp "/" ++ name) = name
  ∧ path_name (dir ++ cp "/" ++ name ++ cp "/") = name.
Proof.
  intros Hslash Hne Hdot. unfold path_name.
  change (cp "/" ++ name) with (47 :: name).
  change (cp "/" ++ name ++ cp "/") with (47 :: (name ++ 47 :: [])).
  rewrite !split_app_sep, (split_no_sep_id 47 name) by done.
  change (split 47 []) with [@nil N].
  rewrite !filter_app, !(assoc_L (++)).
  rewrite (filter_cons_True _ name) by done.
  rewrite (filter_cons_False _ []) by (intros [??]; done).
  rewrite !filter_nil, app_nil_r.
  by rewrite last_snoc.
Qed.

Lemma rfind_not_elem_of c s : c ∉ s → rfind c s = None.
Proof.
  induction s as [|x s IH]; [done |]. rewrite not_elem_of_cons.
  intros [Hne Hs]. simpl. rewrite IH by done.
  destruct (N.eqb_spec x c); [congruence | done].
Qed.

Lemma rfind_last c a b : c ∉ b → rfind c (a ++ c :: b) = Some (length a).
Proof.
  intros Hb. induction a as [|x a IH]; simpl.
  - by rewrite rfind_not_elem_of, N.eqb_refl.
  - by rewrite IH.
Qed.

Lemma path_suffix_of_name name stem e :
  name = stem ++ cp "." ++ e → stem ≠ [] → e ≠ [] → 46 ∉ e →
  (∀ url, path_name url = name → path_suffix url = cp "." ++ e).
Proof.
  intros -> Hstem He Hdot url Hname. unfold path_suffix. rewrite Hname.
  change (cp "." ++ e) with (46 :: e).
  rewrite rfind_last by done.
  rewrite bool_decide_eq_true_2.
  - by rewrite drop_app_length.
  - rewrite length_app. simpl. destruct stem; [done |]. destruct e; [done |].
    simpl. lia.
Qed.

(** X16. The extension of a filename is read off the last path component
    of the URL alone, trailing slash or not: when that component is
    <stem>.<ext>, the filename is <date>_<type>.<ext>, <ext> being all that
    follows the component's last dot (a query string included); when the
    component has no dot, the filename ends in ".pdf". *)
Theorem extension_of_last_component (date_str ftype dir stem e name : str) :
  (47 ∉ stem → 47 ∉ e → 46 ∉ e → stem ≠ [] → e ≠ [] →
   build_filename date_str ftype (dir ++ cp "/" ++ stem ++ cp "." ++ e)
   = date_str ++ cp "_" ++ ftype ++ cp "." ++ e
   ∧ build_filename date_str ftype (dir ++ cp "/" ++ (stem ++ cp "." ++ e) ++ cp "/")
     = date_str ++ cp "_" ++ ftype ++ cp "." ++ e)
  ∧ (47 ∉ name → 46 ∉ name → name ≠ [] →
     build_filename date_str ftype (dir ++ cp "/" ++ name)
     = date_str ++ cp "_" ++ ftype ++ cp ".pdf").
Proof.
  split.
  - intros Hs1 Hs2 Hdot Hstem He.
    assert (47 ∉ stem ++ cp "." ++ e) as Hslash.
    { rewrite !elem_of_app. intros [? | [Hin | ?]]; try done.
      vm_compute in Hin. set_solver. }
    assert (stem ++ cp "." ++ e ≠ []) as Hne by (by destruct stem).
    assert (stem ++ cp "." ++ e ≠ cp ".") as Hnd.
    { intros Heq. apply (f_equal length) in Heq. rewrite length_app in Heq.
      destruct stem; [done |]. destruct e; [done |]. simpl in Heq. lia. }
    destruct (path_name_last_component dir _ Hslash Hne Hnd) as [Hn1 Hn2].
    unfold build_filename.
    rewrite (path_suffix_of_name _ stem e eq_refl Hstem He Hdot _ Hn1).
    rewrite (path_suffix_of_name _ stem e eq_refl Hstem He Hdot _ Hn2).
    by rewrite bool_decide_eq_false_2 by done.
  - intros Hslash Hdot Hne.
    assert (name ≠ cp ".") as Hnd.
    { intros ->. apply Hdot. vm_compute. set_solver. }
    destruct (path_name_last_component dir _ Hslash Hne Hnd) as [Hn1 _].
    unfold build_filename, path_suffix.
    by rewrite Hn1, rfind_not_elem_of by done.
Qed.

Lemma extension_of_last_component_witness :
  (build_filename (cp "05012023") (cp "agenda")
     (cp "https://x/ViewFile" ++ cp "/" ++ cp "a" ++ cp "." ++ cp "pdf?v=2")
   = cp "05012023" ++ cp "_" ++ cp "agenda" ++ cp "." ++ cp "pdf?v=2"
   ∧ build_filename (cp "05012023") (cp "agenda")
       (cp "https://x/ViewFile" ++ cp "/" ++ (cp "a" ++ cp "." ++ cp "pdf?v=2") ++ cp "/")
     = cp "05012023" ++ cp "_" ++ cp "agenda" ++ cp "." ++ cp "pdf?v=2")
  ∧ build_filename (cp "05012023") (cp "agenda")
      (cp "https://x/ViewFile" ++ cp "/" ++ cp "501?packet=true")
    = cp "05012023" ++ cp "_" ++ cp "agenda" ++ cp ".pdf".
Proof.
  destruct (extension_of_last_component (cp "05012023") (cp "agenda")
              (cp "https://x/ViewFile") (cp "a") (cp "pdf?v=2")
              (cp "501?packet=true")) as [Hext Hnone].
  split.
  - apply Hext; vm_compute; try discriminate; set_solver.
  - apply Hnone; vm_compute; try discriminate; set_solver.
Defined.

(** ** The form of a filename *)

Lemma trailing_components trail :
  trailing trail →
  trail = [] ∨ ∃ t, trail = 47 :: t
                    ∧ Forall (fun x => x = [] ∨ x = cp ".") (split 47 t).
Proof.
  induction 1 as [| t _ IH | t _ IH]; [by left | |]; right.
  - exists t. split; [done |].
    destruct IH as [-> | (t' & -> & Hall)]; [by repeat constructor |].
    change (split 47 (47 :: t')) with ([] :: split 47 t').
    constructor; [by left | done].
  - exists (46 :: t). split; [done |].
    destruct IH as [-> | (t' & -> & Hall)]; [by repeat constructor |].
    change (split 47 (46 :: 47 :: t')) with ([46] :: split 47 t').
    constructor; [by right | done].
Qed.

Lemma filter_dropped (P : str → Prop) `{!∀ x, Decision (P x)} (comps : list str) :
  (∀ x, P x ↔ x ≠ [] ∧ x ≠ cp ".") →
  Forall (fun x => x = [] ∨ x = cp ".") comps → filter P comps = [].
Proof.
  intros HP. induction 1 as [| x comps Hx _ IH]; [done |].
  rewrite filter_cons_False; [done |]. rewrite HP. intros [??]. by destruct Hx.
Qed.

Lemma split_name_trail name trail :
  47 ∉ name → trailing trail →
  ∃ comps, split 47 (name ++ trail) = name :: comps
           ∧ Forall (fun x => x = [] ∨ x = cp ".") comps.
Proof.
  intros Hname [-> | (t & -> & Hall)]%trailing_components.
  - exists []. by rewrite app_nil_r, split_no_sep_id.
  - exists (split 47 t). by rewrite split_app_sep, split_no_sep_id.
Qed.

(** [Path(url).name] is the last component of [url]. *)
Lemma path_name_of_last_component url name :
  last_component url name → path_name url = name.
Proof.
  intros (Hslash & Hne & Hdot & dir & trail & -> & Hdir & Htrail).
  destruct (split_name_trail name trail Hslash Htrail) as (comps & Hsplit & Hall).
  unfold path_name. destruct Hdir as [-> | [d ->]].
  - simpl. rewrite Hsplit, (filter_cons_True _ name) by done.
    by rewrite filter_dropped.
  - rewrite <- (assoc_L (++)). change ([47] ++ name ++ trail) with (47 :: (name ++ trail)).
    rewrite split_app_sep, Hsplit, filter_app.
    rewrite (filter_cons_True _ name) by done.
    rewrite (filter_dropped _ comps) by done.
    by rewrite last_snoc.
Qed.

Lemma no_component_split url :
  no_component url → Forall (fun x => x = [] ∨ x = cp ".") (split 47 url).
Proof.
  intros (t & Ht & [-> | ->]).
  - destruct (trailing_components t Ht) as [-> | (t' & -> & Hall)];
      [by repeat constructor |].
    change (split 47 (47 :: t')) with ([] :: split 47 t').
    constructor; [by left | done].
  - destruct (trailing_components t Ht) as [-> | (t' & -> & Hall)];
      [by repeat constructor |].
    change (split 47 (46 :: 47 :: t')) with ([46] :: split 47 t').
    constructor; [by right | done].
Qed.

Lemma path_name_no_component url : no_component url → path_name url = [].
Proof.
  intros Hnone. unfold path_name.
  by rewrite filter_dropped by (done || by apply no_component_split).
Qed.

Lemma join_cons sep x y rest :
  join sep (x :: y :: rest) = x ++ sep :: join sep (y :: rest).
Proof. done. Qed.

Lemma join_split sep s : join sep (split sep s) = s.
Proof.
  induction s as [|c s IH]; [done |]. simpl.
  pose proof (split_nonempty sep s) as Hne.
  destruct (N.eqb_spec c sep) as [-> | Hc].
  - destruct (split sep s) as [|h t]; [done |]. by rewrite join_cons, IH.
  - destruct (split sep s) as [|h [|h' t]]; [done | |].
    + simpl in *. by rewrite IH.
    + rewrite join_cons. rewrite join_cons in IH. by rewrite <- IH.
Qed.

Lemma join_app sep a x b :
  join sep (a ++ x :: b)
  = (if a is [] then [] else join sep a ++ [sep]) ++ x
    ++ (if b is [] then [] else sep :: join sep b).
Proof.
  induction a as [|y a IH].
  - destruct b as [|z b]; simpl; [by rewrite app_nil_r | done].
  - destruct a as [|y' a].
    + change ([y] ++ x :: b) with (y :: x :: b). rewrite join_cons.
      change (join sep [y]) with y. rewrite <- (assoc_L (++)). f_equal.
      simpl. f_equal. destruct b as [|z b]; [by rewrite app_nil_r | done].
    + change ((y :: y' :: a) ++ x :: b) with (y :: y' :: (a ++ x :: b)).
      rewrite !join_cons.
      change (y' :: (a ++ x :: b)) with ((y' :: a) ++ x :: b).
      rewrite IH, <- !app_assoc. simpl. by rewrite <- ?app_assoc.
Qed.

Lemma trailing_join comps :
  Forall (fun x => x = [] ∨ x = cp ".") comps →
  comps ≠ [] → trailing (47 :: join 47 comps).
Proof.
  induction 1 as [| x comps Hx Hall IH]; [done |]. intros _.
  destruct comps as [|y comps].
  - destruct Hx as [-> | ->]; simpl.
    + apply trailing_slash, trailing_nil.
    + apply trailing_dot, trailing_nil.
  - rewrite join_cons. destruct Hx as [-> | ->].
    + apply trailing_slash. by apply IH.
    + apply trailing_dot. by apply IH.
Qed.

(** The last element of [l] that passes the filter, and what comes after
    it. *)
Lemma last_filter_split {A} (P : A → Prop) `{!∀ x, Decision (P x)} (l : list A) :
  Forall (fun x => ¬ P x) l
  ∨ ∃ a x b, l = a ++ x :: b ∧ P x ∧ Forall (fun y => ¬ P y) b
             ∧ last (filter P l) = Some x.
Proof.
  induction l as [|y l IH]; [left; constructor |].
  destruct IH as [Hall | (a & x & b & -> & Hx & Hb & Hlast)].
  - destruct (decide (P y)) as [Hy | Hy].
    + right. exists [], y, l. repeat split; try done.
      rewrite filter_cons_True by done.
      assert (filter P l = []) as ->; [| done].
      clear -Hall. induction Hall as [| z l Hz _ IH]; [done |].
      by rewrite filter_cons_False.
    + left. by constructor.
  - right. exists (y :: a), x, b. repeat split; try done.
    destruct (decide (P y)).
    + rewrite filter_cons_True by done.
      destruct (filter P (a ++ x :: b)); [done |]. done.
    + by rewrite filter_cons_False.
Qed.

(** Every URL has a last component, which is its [Path(url).name], or
    none at all. *)
Lemma last_component_cases url :
  last_component url (path_name url) ∨ no_component url.
Proof.
  pose proof (join_split 47 url) as Hjoin.
  pose proof (split_no_sep 47 url) as Hsep.
  pose proof (split_nonempty 47 url) as Hne.
  unfold path_name.
  assert (∀ comps : list str,
            Forall (fun x => ¬ (x ≠ [] ∧ x ≠ cp ".")) comps →
            Forall (fun x => x = [] ∨ x = cp ".") comps) as Hdrop.
  { intros comps Hcomps. eapply Forall_impl; [exact Hcomps |]. intros x Hx.
    destruct (decide (x = [])); [by left |].
    destruct (decide (x = cp ".")); [by right |]. by destruct Hx. }
  match goal with
  | |- context [@filter _ _ _ ?Q ?D (split 47 url)] =>
      destruct (@last_filter_split _ Q D (split 47 url))
        as [Hall | (a & x & b & Hsplit & [Hx1 Hx2] & Hb & Hlast)]
  end.
  - right. apply Hdrop in Hall.
    destruct (split 47 url) as [|c rest]; [done |].
    apply Forall_cons in Hall as [Hc Hrest].
    exists (if rest is [] then [] else 47 :: join 47 rest). split.
    + destruct rest as [|r rest]; [constructor |]. by apply trailing_join.
    + destruct Hc as [-> | ->]; [left | right]; rewrite <- Hjoin;
        by destruct rest.
  - left.
    match goal with
    | |- last_component _ (default [] ?l) =>
        replace l with (Some x) by (symmetry; exact Hlast)
    end.
    simpl. rewrite Hsplit in Hjoin, Hsep.
    apply Forall_app in Hsep as [_ Hsep]. apply Forall_cons in Hsep as [Hx _].
    split; [done |]. split; [done |]. split; [done |].
    exists (if a is [] then [] else join 47 a ++ [47]),
      (if b is [] then [] else 47 :: join 47 b).
    split; [by rewrite <- Hjoin, join_app |]. split.
    + destruct a; [by left | right; by eexists].
    + destruct b as [|y b]; [constructor |].
      apply trailing_join; [by apply Hdrop | done].
Qed.

Lemma path_suffix_none name :
  46 ∉ name ∨ (∃ e, name = 46 :: e ∧ 46 ∉ e) ∨ (∃ stem, name = stem ++ [46]) →
  ∀ url, path_name url = name → path_suffix url = [].
Proof.
  intros Hcases url Hname. unfold path_suffix. rewrite Hname.
  destruct Hcases as [Hdot | [(e & -> & Hdot) | (stem & ->)]].
  - by rewrite rfind_not_elem_of.
  - change (46 :: e) with ([] ++ 46 :: e). rewrite rfind_last by done.
    by rewrite bool_decide_eq_false_2 by (simpl; lia).
  - rewrite (rfind_last 46 stem []) by apply not_elem_of_nil.
    rewrite bool_decide_eq_false_2; [done |]. rewrite length_app. simpl. lia.
Qed.

(** C7. The filename is a function of (date or fallback, type, URL) alone
    and has the form <date_or_id>_<type><ext>, <ext> being the extension of
    the URL's last path component, leading dot included: when that
    component is <stem>.<e> with <e> free of dots, <ext> is .<e>; when the
    component has no dot, or only a leading or a trailing one, and when
    the URL has no component at all, <ext> is ".pdf"; every URL has a last
    component, which is [Path(url).name], or none.  In every case <ext> is
    [Path(url).suffix] or, when that is empty, ".pdf", and a suffix that is
    not empty is the end of the name from its last dot on. *)
Theorem build_filename_form (date_str ftype url : str) :
  let ext := path_suffix url in
  (∀ name, last_component url name →
     (∀ stem e, name = stem ++ cp "." ++ e → stem ≠ [] → e ≠ [] → 46 ∉ e →
        build_filename date_str ftype url
        = date_str ++ cp "_" ++ ftype ++ cp "." ++ e)
     ∧ (46 ∉ name ∨ (∃ e, name = 46 :: e ∧ 46 ∉ e) ∨ (∃ stem, name = stem ++ [46]) →
        build_filename date_str ftype url
        = date_str ++ cp "_" ++ ftype ++ cp ".pdf"))
  ∧ (no_component url →
     build_filename date_str ftype url = date_str ++ cp "_" ++ ftype ++ cp ".pdf")
  ∧ (last_component url (path_name url) ∨ no_component url)
  ∧ build_filename date_str ftype url
    = date_str ++ cp "_" ++ ftype ++ (if bool_decide (ext = []) then cp ".pdf" else ext)
  ∧ (ext ≠ [] →
     ∃ stem rest, path_name url = stem ++ ext ∧ stem ≠ []
                  ∧ ext = 46 :: rest ∧ rest ≠ [] ∧ 46 ∉ rest)
  ∧ (∀ date_str' ftype' url',
       date_str' = date_str → ftype' = ftype → url' = url →
       build_filename date_str' ftype' url' = build_filename date_str ftype url)
  ∧ build_filename (cp "05012023") (cp "agenda")
      (cp "https://www.joplinmo.org/AgendaCenter/ViewFile/Agenda/_05012023-501.pdf")
    = cp "05012023_agenda.pdf"
  ∧ build_filename (cp "05012023") (cp "packet")
      (cp "https://site/AgendaCenter/ViewFile/Packet/501?packet=true")
    = cp "05012023_packet.pdf".
Proof.
  intros ext. split; [| split].
  - intros name Hlast. apply path_name_of_last_component in Hlast as Hname.
    split.
    + intros stem e Heq Hstem He Hdot. unfold build_filename.
      rewrite (path_suffix_of_name name stem e Heq Hstem He Hdot url Hname).
      by rewrite bool_decide_eq_false_2 by done.
    + intros Hcases. unfold build_filename.
      by rewrite (path_suffix_none name Hcases url Hname).
  - intros Hnone. unfold build_filename, path_suffix.
    by rewrite path_name_no_component.
  - split; [apply last_component_cases |].
    split; [done |]. split; [apply path_suffix_shape |].
    split; [by intros ??? -> -> -> |]. by vm_compute.
Qed.

Lemma build_filename_form_witness :
  build_filename (cp "05012023") (cp "minutes")
    (cp "https://x/v1.2/" ++ (cp "b.tar" ++ cp "." ++ cp "gz") ++ cp "/./")
  = cp "05012023" ++ cp "_" ++ cp "minutes" ++ cp "." ++ cp "gz"
  ∧ build_filename (cp "05012023") (cp "minutes") (cp "https://x/v1.2/" ++ cp "501" ++ [])
    = cp "05012023" ++ cp "_" ++ cp "minutes" ++ cp ".pdf"
  ∧ build_filename (cp "05012023") (cp "minutes") (cp "//")
    = cp "05012023" ++ cp "_" ++ cp "minutes" ++ cp ".pdf"
  ∧ ∃ stem rest,
      path_name (cp "https://x/a/b.tar.gz") = stem ++ path_suffix (cp "https://x/a/b.tar.gz")
      ∧ stem ≠ [] ∧ path_suffix (cp "https://x/a/b.tar.gz") = 46 :: rest
      ∧ rest ≠ [] ∧ 46 ∉ rest.
Proof.
  assert (last_component
            (cp "https://x/v1.2/" ++ (cp "b.tar" ++ cp "." ++ cp "gz") ++ cp "/./")
            (cp "b.tar" ++ cp "." ++ cp "gz")) as Hlast1.
  { split; [vm_compute; set_solver |]. split; [discriminate |].
    split; [discriminate |].
    exists (cp "https://x/v1.2/"), (cp "/./"). split; [reflexivity |].
    split; [right; by exists (cp "https://x/v1.2") |].
    apply trailing_dot, trailing_slash, trailing_nil. }
  assert (last_component (cp "https://x/v1.2/" ++ cp "501" ++ []) (cp "501"))
    as Hlast2.
  { split; [vm_compute; set_solver |]. split; [discriminate |].
    split; [discriminate |].
    exists (cp "https://x/v1.2/"), []. split; [reflexivity |].
    split; [right; by exists (cp "https://x/v1.2") | constructor]. }
  split; [| split; [| split]].
  - apply (proj1 (proj1 (build_filename_form (cp "05012023") (cp "minutes")
                           (cp "https://x/v1.2/" ++ (cp "b.tar" ++ cp "." ++ cp "gz")
                            ++ cp "/./"))
                    (cp "b.tar" ++ cp "." ++ cp "gz") Hlast1)
             (cp "b.tar") (cp "gz")).
    + reflexivity.
    + discriminate.
    + discriminate.
    + vm_compute. set_solver.
  - apply (proj2 (proj1 (build_filename_form (cp "05012023") (cp "minutes")
                           (cp "https://x/v1.2/" ++ cp "501" ++ []))
                    (cp "501") Hlast2)).
    left. vm_compute. set_solver.
  - apply (proj1 (proj2 (build_filename_form (cp "05012023") (cp "minutes")
                           (cp "//")))).
    exists (cp "//"). split; [| by left].
    apply trailing_slash, trailing_slash, trailing_nil.
  - refine (proj1 (proj2 (proj2 (proj2 (proj2
              (build_filename_form [] [] (cp "https://x/a/b.tar.gz")))))) _).
    vm_compute. discriminate.
Defined.

(** ** The order of the years *)

Section YearOrder.
Context {U : UnicodeData} {P : HtmlParser} {Net : Network}.



End YearOrder.



(** ** From a meeting id to its URL and back *)

Lemma pretty_N_char_code y : y < 10 → N_of_ascii (pretty_N_char y) = 48 + y.
Proof.
  intros Hy.
  assert (y = 0 ∨ y = 1 ∨ y = 2 ∨ y = 3 ∨ y = 4 ∨ y = 5 ∨ y = 6 ∨ y = 7
          ∨ y = 8 ∨ y = 9) as Hcases by lia.
  repeat (destruct Hcases as [-> | Hcases]; [reflexivity |]). by subst.
Qed.

Lemma cp_String c s : cp (String c s) = N_of_ascii c :: cp s.
Proof. done. Qed.

Lemma str_of_int_digits n : Forall (fun c => 48 ≤ c ≤ 57) (str_of_int n).
Proof.
  assert (∀ x s, Forall (fun c => 48 ≤ c ≤ 57) (cp s) →
                 Forall (fun c => 48 ≤ c ≤ 57) (cp (pretty_N_go x s))) as Hgo.
  { intros x. induction (N.lt_wf_0 x) as [x _ IH]. intros s Hs.
    assert (x = 0 ∨ 0 < x) as [-> | Hpos] by lia.
    - by rewrite pretty_N_go_0.
    - rewrite pretty_N_go_step by done. apply IH; [by apply N.div_lt |].
      rewrite cp_String. constructor; [| done].
      rewrite pretty_N_char_code by (apply N.mod_lt; lia).
      pose proof (N.mod_lt x 10 ltac:(lia)) as Hmod. revert Hmod.
      generalize (x `mod` 10). intros; lia. }
  unfold str_of_int, pretty, pretty_N. case_decide.
  - vm_compute. repeat constructor; discriminate.
  - apply Hgo. constructor.
Qed.

Lemma int_of_digits_str_of_int {U : UnicodeData} n :
  (∀ c, 48 ≤ c ≤ 57 → decimal_value c = c - 48) →
  int_of_digits (str_of_int n) = n.
Proof.
  intros Hval. unfold int_of_digits.
  set (step := fun acc c => acc * 10 + decimal_value c).
  assert (∀ x s, foldl step 0 (cp (pretty_N_go x s)) = foldl step x (cp s)) as Hgo.
  { intros x. induction (N.lt_wf_0 x) as [x _ IH]. intros s.
    assert (x = 0 ∨ 0 < x) as [-> | Hpos] by lia.
    - by rewrite pretty_N_go_0.
    - rewrite pretty_N_go_step by done.
      rewrite IH by (by apply N.div_lt). rewrite cp_String. simpl. f_equal.
      subst step. simpl.
      pose proof (N.mod_lt x 10 ltac:(lia)) as Hmod.
      pose proof (N.div_mod x 10 ltac:(lia)) as Hdiv.
      rewrite pretty_N_char_code by done.
      revert Hmod Hdiv. generalize (x `mod` 10) (x `div` 10). intros r q Hr Hx.
      rewrite Hval by lia. lia. }
  unfold str_of_int, pretty, pretty_N. case_decide as Hn.
  - subst n. change (cp "0") with [48]. simpl. subst step. simpl.
    rewrite Hval by lia. done.
  - by rewrite Hgo.
Qed.

Lemma str_of_int_nonempty n : str_of_int n ≠ [].
Proof.
  unfold str_of_int, pretty, pretty_N. case_decide as Hn; [done |].
  assert (0 < n) as Hpos by lia. rewrite pretty_N_go_step by done.
  assert (∀ x s, cp s ≠ [] → cp (pretty_N_go x s) ≠ []) as Hgo.
  { intros x. induction (N.lt_wf_0 x) as [x _ IH]. intros s Hs.
    assert (x = 0 ∨ 0 < x) as [-> | Hx] by lia.
    - by rewrite pretty_N_go_0.
    - rewrite pretty_N_go_step by done. apply IH; [by apply N.div_lt |].
      by rewrite cp_String. }
  apply Hgo. by rewrite cp_String.
Qed.

Lemma group_insert (c : captures) i g : group (<[i := g]> c) i = g.
Proof. unfold group, captures in *. by rewrite lookup_insert_eq. Qed.

Section RoundTrip.
Context {U : UnicodeData}.
Hypothesis Hknown : ascii_digits_known U.

Lemma str_of_int_decimal n : Forall (fun x => is_decimal x = true) (str_of_int n).
Proof.
  eapply Forall_impl; [apply str_of_int_digits |]. intros c Hc.
  by apply Hknown.
Qed.

Lemma search_meeting_url year meeting_id :
  search meeting_id_pattern (meeting_url year meeting_id)
  = Some (<[1%nat := str_of_int meeting_id]> ∅).
Proof.
  unfold meeting_url. fold MEETING_PATH.
  apply (search_meeting_id_leftmost BASE_URL (str_of_int meeting_id)
           (cp "?MOBILE=ON&year=" ++ str_of_int year)).
  - intros i Hi. change (length BASE_URL) with 24%nat in Hi.
    do 24 (destruct i as [|i]; [reflexivity |]). lia.
  - apply str_of_int_nonempty.
  - apply str_of_int_decimal.
  - intros c [= <-]. apply Hknown.
Qed.

Lemma search_relative_link meeting_id :
  search meeting_id_pattern (MEETING_PATH ++ str_of_int meeting_id)
  = Some (<[1%nat := str_of_int meeting_id]> ∅).
Proof.
  pose proof (search_meeting_id_leftmost [] (str_of_int meeting_id) []) as Hm.
  rewrite app_nil_r in Hm. apply Hm.
  - intros i Hi. simpl in Hi. lia.
  - apply str_of_int_nonempty.
  - apply str_of_int_decimal.
  - done.
Qed.

Lemma collect_ids_from_found ids href hrefs meeting_id :
  search meeting_id_pattern href = Some (<[1%nat := str_of_int meeting_id]> ∅) →
  collect_ids_from ids (href :: hrefs)
  = if within_int_limit (str_of_int meeting_id)
    then collect_ids_from (ids ++ [meeting_id]) hrefs
    else Raise ValueError.
Proof.
  intros Hm. cbn [collect_ids_from]. rewrite Hm. unfold py_int.
  rewrite group_insert.
  destruct (within_int_limit (str_of_int meeting_id)); [| done].
  rewrite int_of_digits_str_of_int; [done |]. intros c Hc. by apply Hknown.
Qed.
End RoundTrip.

(** X18. The URL the orchestrator builds for a meeting leads back to that
    meeting: when the loop of [extract_meeting_ids] comes to
    [meeting_url year id], or to the relative link /AgendaCenter/26/<id> of
    a listing page, it appends [id] itself and goes on, unless [id] has
    more digits than [int()] accepts, in which case it ends in ValueError.
    (The tables must know the ASCII digits, and "?" must not be a digit.) *)
Theorem meeting_id_round_trip {U : UnicodeData} (year meeting_id : N)
    (ids : list N) (hrefs : list str) :
  ascii_digits_known U →
  collect_ids_from ids (meeting_url year meeting_id :: hrefs)
  = (if within_int_limit (str_of_int meeting_id)
     then collect_ids_from (ids ++ [meeting_id]) hrefs
     else Raise ValueError)
  ∧ collect_ids_from ids ((MEETING_PATH ++ str_of_int meeting_id) :: hrefs)
    = (if within_int_limit (str_of_int meeting_id)
       then collect_ids_from (ids ++ [meeting_id]) hrefs
       else Raise ValueError).
Proof.
  intros Hknown. split; apply collect_ids_from_found; try done.
  - by apply search_meeting_url.
  - by apply search_relative_link.
Qed.

Lemma meeting_id_round_trip_witness :
  collect_ids_from (U := basic_latin) [] [meeting_url 2023 501] = Ok [501]
  ∧ collect_ids_from (U := basic_latin) [] [MEETING_PATH ++ str_of_int 501]
    = Ok [501].
Proof.
  destruct (meeting_id_round_trip (U := basic_latin) 2023 501 [] []) as [H1 H2].
  - split; [| reflexivity]. intros c Hc. simpl. split.
    + apply andb_true_iff. split; apply N.leb_le; lia.
    + reflexivity.
  - split; [etrans; [exact H1 | reflexivity] | etrans; [exact H2 | reflexivity]].
Defined.

(** ** Page requests are not repeated *)

Lemma page_requests_app tr1 tr2 :
  page_requests (tr1 ++ tr2) = page_requests tr1 ++ page_requests tr2.
Proof. apply omap_app. Qed.

Lemma meeting_url_inj year : Inj (=) (=) (meeting_url year).
Proof.
  intros a b Heq. unfold meeting_url in Heq.
  do 2 apply app_inv_head in Heq. apply app_inv_tail in Heq.
  by apply str_of_int_inj.
Qed.

Lemma list_url_not_meeting_url year year' meeting_id :
  list_url year ≠ meeting_url year' meeting_id.
Proof.
  unfold list_url, meeting_url. intros Heq. apply app_inv_head in Heq.
  apply (f_equal (take 15)) in Heq. vm_compute in Heq. discriminate.
Qed.

Section PageRequests.
Context {U : UnicodeData} {P : HtmlParser} {Net : Network}.

Lemma process_file_no_get year_dir date_str link :
  adds (fun tr => page_requests tr = []) (process_file year_dir date_str link).
Proof.
  destruct link as [file_url ftype]. intros w.
  set (dst := joinpath year_dir (build_filename date_str ftype file_url)).
  destruct (files w !! dst) as [b|] eqn:Hdst.
  - rewrite process_file_skips by (fold dst; rewrite Hdst; eauto).
    exists []. by rewrite app_nil_r.
  - rewrite process_file_attempt by done. fold dst.
    destruct (http_stream _ _); by eexists.
Qed.

Lemma process_meeting_one_get year year_dir meeting_id w :
  ∃ tr, trace (process_meeting year year_dir meeting_id w).2 = trace w ++ tr
        ∧ page_requests tr = [meeting_url year meeting_id].
Proof.
  destruct (http_get (length (trace w)) (meeting_url year meeting_id))
    as [html|] eqn:Hget.
  - unfold process_meeting, bind at 1, try_except, bind at 1, fetch.
    rewrite Hget. simpl.
    set (w1 := {| files := files w;
                  trace := trace w ++ [Get (meeting_url year meeting_id)] |}).
    set (m := bind _ _).
    assert (adds (fun tr => page_requests tr = []) m) as Hm.
    { assert (∀ tr1 tr2, page_requests tr1 = [] → page_requests tr2 = [] →
                page_requests (tr1 ++ tr2) = []) as Happ.
      { intros ?? H1 H2. by rewrite page_requests_app, H1, H2. }
      subst m. apply (adds_bind _ Happ).
      - unfold meeting_date_str. apply (adds_bind _ Happ).
        + by apply adds_lift.
        + intros ?. by apply adds_ret.
      - intros d. apply (adds_for_each _ eq_refl Happ).
        intros link. apply process_file_no_get. }
    destruct (Hm w1) as (tr & Htr & Hnone).
    exists (Get (meeting_url year meeting_id) :: tr).
    split; [by rewrite Htr; simpl; rewrite <- (assoc_L (++)) |].
    change (page_requests (Get (meeting_url year meeting_id) :: tr))
      with (meeting_url year meeting_id :: page_requests tr).
    by rewrite Hnone.
  - rewrite process_meeting_fetch_failure by done.
    by exists [Get (meeting_url year meeting_id); Print (MeetingFailed meeting_id)].
Qed.

Lemma meetings_gets year year_dir ids : ∀ w,
  ∃ tr visited rest,
    trace (for_each ids (process_meeting year year_dir) w).2 = trace w ++ tr
    ∧ ids = visited ++ rest
    ∧ page_requests tr = meeting_url year <$> visited
    ∧ ((for_each ids (process_meeting year year_dir) w).1 = Ok tt → rest = []).
Proof.
  induction ids as [|id ids IH]; intros w; simpl.
  - exists [], [], []. by rewrite app_nil_r.
  - unfold bind.
    destruct (process_meeting_one_get year year_dir id w) as (tr1 & Ht1 & Hc1).
    destruct (process_meeting year year_dir id w) as [[[] | e] w1]; simpl in *.
    + destruct (IH w1) as (tr2 & visited & rest & Ht2 & -> & Hreq & Hok).
      exists (tr1 ++ tr2), (id :: visited), rest.
      rewrite Ht2, Ht1, (assoc_L (++)), page_requests_app, Hc1, Hreq.
      done.
    + exists tr1, [id], ids. by rewrite Hc1.
Qed.
End PageRequests.

(** X19. No page is requested twice within a year.  Once the listing page
    has been fetched and has given the meeting ids, the page requests of
    the year are, in this order, the one for the listing page and one for
    the page of each meeting id the year got to, in the order of the list;
    they are pairwise different, so no page is requested again, whether
    its request failed or not; and when the year ends normally every
    meeting id of the list has had its request. *)
Theorem one_page_request_per_meeting {U : UnicodeData} {P : HtmlParser}
    {Net : Network} (year : N) (out_root list_html : str) (ids : list N)
    (w : World) :
  http_get (S (length (trace w))) (list_url year) = Some list_html →
  extract_meeting_ids list_html = Ok ids →
  ∃ tr visited rest,
    trace (scrape_year year out_root w).2 = trace w ++ tr
    ∧ ids = visited ++ rest
    ∧ page_requests tr = list_url year :: (meeting_url year <$> visited)
    ∧ NoDup (page_requests tr)
    ∧ ((scrape_year year out_root w).1 = Ok tt → rest = []).
Proof.
  intros Hget Hids.
  assert (NoDup ids) as Hnd.
  { rewrite extract_meeting_ids_eq in Hids.
    destruct (ids_within_limit _); [| done]. injection Hids as <-.
    rewrite dedup_keep_first. apply keep_first_NoDup. }
  assert (∀ visited rest, ids = visited ++ rest →
            NoDup (list_url year :: (meeting_url year <$> visited))) as Hdistinct.
  { intros visited rest ->. apply NoDup_app in Hnd as (Hv & _ & _).
    constructor.
    - intros (id & Heq & _)%list_elem_of_fmap.
      by apply list_url_not_meeting_url in Heq.
    - apply NoDup_fmap_2; [apply meeting_url_inj | done]. }
  rewrite (scrape_year_after_listing _ _ _ _ Hget), Hids.
  destruct ids as [|id ids'].
  - exists [Print (Scraping year); Get (list_url year); Print (NoMeetings year)],
      [], [].
    repeat split; try done. by apply (Hdistinct [] []).
  - case_bool_decide.
    + exists [Print (Scraping year); Get (list_url year)], [], (id :: ids').
      repeat split; try done. by apply (Hdistinct [] (id :: ids')).
    + destruct (meetings_gets year (joinpath out_root (str_of_int year))
                  (id :: ids') (after_failed_listing year w))
        as (tr & visited & rest & Htr & Hsplit & Hreq & Hok).
      exists (Print (Scraping year) :: Get (list_url year) :: tr), visited, rest.
      assert (page_requests (Print (Scraping year) :: Get (list_url year) :: tr)
              = list_url year :: (meeting_url year <$> visited)) as Hpages.
      { change (page_requests (Print (Scraping year) :: Get (list_url year) :: tr))
          with (list_url year :: page_requests tr).
        by rewrite Hreq. }
      split; [by rewrite Htr; simpl; rewrite <- !(assoc_L (++)) |].
      split; [done |]. split; [done |].
      split; [rewrite Hpages; by eapply Hdistinct | done].
Qed.

Lemma one_page_request_per_meeting_witness :
  ∃ tr visited rest,
    trace (scrape_year (U := basic_latin) (P := canned two_meetings_listing)
             (Net := serving_site) 2023 OUT_ROOT empty_world).2
    = trace empty_world ++ tr
    ∧ [501; 502] = visited ++ rest
    ∧ page_requests tr = list_url 2023 :: (meeting_url 2023 <$> visited)
    ∧ NoDup (page_requests tr)
    ∧ ((scrape_year (U := basic_latin) (P := canned two_meetings_listing)
          (Net := serving_site) 2023 OUT_ROOT empty_world).1 = Ok tt →
       rest = []).
Proof.
  apply (one_page_request_per_meeting (U := basic_latin)
           (P := canned two_meetings_listing) (Net := serving_site)
           2023 OUT_ROOT [] [501; 502] empty_world).
  - reflexivity.
  - vm_compute. reflexivity.
Defined.
